(** * Cretonne meta DSL: target ISA definitions (lib/cretonne/meta/cdsl/isa.py)

    A shallow embedding of [TargetISA], [CPUMode], [EncRecipe] and [Encoding].
    The Python objects that are shared by reference and mutated in place
    (recipes, predicates, register classes, ...) live in an explicit store,
    keyed by object reference; methods are computations in a small
    state-and-exception monad over that store. *)

From stdpp Require Import gmap strings list fin_maps.
From Stdlib Require Import ZArith Lia.

#[local] Open Scope Z_scope.

(** Object references.  A [set()] of objects without [__eq__]/[__hash__]
    compares members by identity, i.e. by reference. *)
Abbreviation ref := nat.

(** ** Collaborators consumed by isa.py *)

Module InstructionFormat.
Record t := mk {
  name : string;
  has_value_list : bool;
  num_value_operands : Z;
}.
#[global] Instance eq_dec : EqDecision t.
Proof. solve_decision. Defined.
End InstructionFormat.

Module Instruction.
Record t := mk {
  name : string;
  format : InstructionFormat.t;
  is_branch : bool;
}.
End Instruction.

(** Concrete value types bound to type variables ([ValueType]). *)
Abbreviation ValueType := string.

(** The context in which a predicate can be evaluated: an instruction format
    (instruction predicates) or a settings group (ISA predicates). *)
Inductive PredContext :=
| CtxFormat (f : InstructionFormat.t)
| CtxSettings (group : string).

#[global] Instance PredContext_eq_dec : EqDecision PredContext.
Proof. solve_decision. Defined.

Inductive PredExpr :=
| PLeaf (descr : string)
| PAnd (parts : list ref).

Module PredNode.
Record t := mk {
  expr : PredExpr;
  context : PredContext;
  number : option nat;
}.
Definition set_number (n : nat) (p : t) : t :=
  mk (expr p) (context p) (Some n).
End PredNode.

Module RegClass.
Record t := mk {
  name : string;
  index : option nat;
}.
Definition set_index (i : nat) (rc : t) : t := mk (name rc) (Some i).
End RegClass.

Module RegBank.
Record t := mk {
  name : string;
  classes : list ref;
}.
End RegBank.

Module SettingGroup.
Record t := mk {
  name : string;
  predicate_number : list (ref * nat);
}.
End SettingGroup.

(** [OperandConstraint = Union[RegClass, Register, int]]; [COther] stands for
    any object of another class that a caller may pass. *)
Inductive OperandConstraint :=
| CInt (c : Z)
| CRegClass (rc : ref)
| CRegister (bank : ref) (unit : Z)
| COther (descr : string).

(** [ConstraintSeq]: a single constraint or a tuple of them. *)
Inductive ConstraintSeq :=
| SeqSingle (c : OperandConstraint)
| SeqTuple (cs : list OperandConstraint).

(** ** The classes of isa.py *)

Module EncRecipe.
Record t := mk {
  name : string;
  format : InstructionFormat.t;
  size : Z;
  branch_range : option (list Z);
  instp : option ref;
  isap : option ref;
  number : option nat;
  ins : list OperandConstraint;
  outs : list OperandConstraint;
}.
Definition set_number (n : nat) (r : t) : t :=
  mk (name r) (format r) (size r) (branch_range r) (instp r) (isap r)
     (Some n) (ins r) (outs r).
End EncRecipe.

Module Encoding.
Record t := mk {
  cpumode : ref;
  inst : Instruction.t;
  typevars : list ValueType;
  recipe : ref;
  encbits : Z;
  instp : option ref;
  isap : option ref;
}.
End Encoding.

Module CPUMode.
Record t := mk {
  name : string;
  isa : ref;
  encodings : list Encoding.t;
}.
Definition append_encoding (e : Encoding.t) (m : t) : t :=
  mk (name m) (isa m) (encodings m ++ [e]).
End CPUMode.

(** [all_recipes] and [all_instps] are not set by [__init__]: the attributes
    exist only once [finish] has run ([None] = attribute absent). *)
Module TargetISA.
Record t := mk {
  name : string;
  settings : option SettingGroup.t;
  instruction_groups : list string;
  cpumodes : list ref;
  regbanks : list ref;
  all_recipes : option (list ref);
  all_instps : option (list ref);
}.
Definition set_settings (s : option SettingGroup.t) (i : t) : t :=
  mk (name i) s (instruction_groups i) (cpumodes i) (regbanks i)
     (all_recipes i) (all_instps i).
Definition set_cpumodes (l : list ref) (i : t) : t :=
  mk (name i) (settings i) (instruction_groups i) l (regbanks i)
     (all_recipes i) (all_instps i).
Definition set_all_recipes (l : option (list ref)) (i : t) : t :=
  mk (name i) (settings i) (instruction_groups i) (cpumodes i) (regbanks i)
     l (all_instps i).
Definition set_all_instps (l : option (list ref)) (i : t) : t :=
  mk (name i) (settings i) (instruction_groups i) (cpumodes i) (regbanks i)
     (all_recipes i) l.
End TargetISA.

(** ** The object store *)

Record World := mkWorld {
  isas : gmap ref TargetISA.t;
  modes : gmap ref CPUMode.t;
  recipes : gmap ref EncRecipe.t;
  preds : gmap ref PredNode.t;
  banks : gmap ref RegBank.t;
  regclasses : gmap ref RegClass.t;
}.

Definition upd_isas (f : gmap ref TargetISA.t → gmap ref TargetISA.t)
    (w : World) : World :=
  mkWorld (f (isas w)) (modes w) (recipes w) (preds w) (banks w) (regclasses w).
Definition upd_modes (f : gmap ref CPUMode.t → gmap ref CPUMode.t)
    (w : World) : World :=
  mkWorld (isas w) (f (modes w)) (recipes w) (preds w) (banks w) (regclasses w).
Definition upd_recipes (f : gmap ref EncRecipe.t → gmap ref EncRecipe.t)
    (w : World) : World :=
  mkWorld (isas w) (modes w) (f (recipes w)) (preds w) (banks w) (regclasses w).
Definition upd_preds (f : gmap ref PredNode.t → gmap ref PredNode.t)
    (w : World) : World :=
  mkWorld (isas w) (modes w) (recipes w) (f (preds w)) (banks w) (regclasses w).
Definition upd_regclasses (f : gmap ref RegClass.t → gmap ref RegClass.t)
    (w : World) : World :=
  mkWorld (isas w) (modes w) (recipes w) (preds w) (banks w) (f (regclasses w)).

(** ** Exceptions

    Every check in isa.py is an [assert]; the constructor of [assertion]
    records which one fired, under the name the error taxonomy gives it.
    [AttributeError] is what Python raises when an attribute is read from an
    object that lacks it ([None.number_predicate], or a reference that
    denotes no object of the expected class). *)
Inductive assertion :=
| SizeError              (* assert size >= 0 *)
| PredicateContextError  (* assert instp.predicate_context() == format *)
| ArityError             (* assert len(self.ins) == format.num_value_operands *)
| ConstraintError        (* the asserts of _verify_constraints *)
| NotFullyBound          (* raised by inst.fully_bound() *)
| NotACPUMode            (* assert isinstance(cpumode, CPUMode) *)
| NotAnEncRecipe         (* assert isinstance(recipe, EncRecipe) *)
| FormatMismatchError    (* assert self.inst.format == recipe.format *)
| BranchRangeError.      (* assert recipe.branch_range *)

Inductive exn :=
| AssertionError (a : assertion)
| AttributeError (attr : string).

(** ** State-and-exception monad *)

Definition M (A : Type) : Type := World → exn + (A * World).

#[global] Instance M_ret : MRet M := λ A a w, inr (a, w).
#[global] Instance M_bind : MBind M := λ A B k m w,
  match m w with
  | inl e => inl e
  | inr (a, w') => k a w'
  end.

Definition raise {A} (e : exn) : M A := λ _, inl e.
Definition get_world : M World := λ w, inr (w, w).
Definition modify (f : World → World) : M unit := λ w, inr (tt, f w).
Definition assert_ (b : bool) (a : assertion) : M unit :=
  if b then mret tt else raise (AssertionError a).

(** Reading an attribute through a reference. *)
Definition getattr {O A} (store : World → gmap ref O) (proj : O → A)
    (attr : string) (r : ref) : M A := λ w,
  match store w !! r with
  | Some o => inr (proj o, w)
  | None => inl (AttributeError attr)
  end.

(** A Python [for] loop whose body updates local variables [B]. *)
Fixpoint foldM {A B} (body : B → A → M B) (b : B) (l : list A) : M B :=
  match l with
  | [] => mret b
  | x :: l => b' ← body b x; foldM body b' l
  end.

(** [for x in l: body], no local variable carried. *)
Definition forM_ {A} (l : list A) (body : A → M unit) : M unit :=
  foldM (λ _ x, body x) tt l.

(** ** Predicates (cdsl/predicates.py, consumed) *)

(** Modelled from the spec: [And.combine] of predicates.py, which is not part
    of isa.py.  AND with an absent predicate returns the other operand
    unchanged (no object is created); AND of two present predicates is a new
    conjunction node over the two, not yet numbered.  The new node is
    evaluated in the context of its first part. *)
Definition And_combine (a b : option ref) : M (option ref) :=
  match a, b with
  | None, None => mret None
  | Some p, None => mret (Some p)
  | None, Some q => mret (Some q)
  | Some p, Some q =>
      ctx ← getattr preds PredNode.context "predicate_context" p;
      w ← get_world;
      let r := fresh (dom (preds w)) in
      modify (upd_preds <[r := PredNode.mk (PAnd [p; q]) ctx None]>) ;;
      mret (Some r)
  end.

(** ** Settings (cdsl/settings.py, consumed) *)

(** Modelled from the spec: [SettingGroup.number_predicate] of settings.py,
    which is not part of isa.py.  It registers an ISA predicate with the
    settings group so that it has a bit position there; registering a
    predicate that is registered already changes nothing. *)
Definition number_predicate (pred : ref) (s : SettingGroup.t) : SettingGroup.t :=
  let tbl := SettingGroup.predicate_number s in
  if decide (pred ∈ tbl.*1) then s
  else SettingGroup.mk (SettingGroup.name s) (tbl ++ [(pred, length tbl)]).

(** [self.settings.number_predicate(pred)]: [self.settings] is [None] until
    the ISA definition assigns a settings group. *)
Definition settings_number_predicate (self pred : ref) : M unit :=
  settings ← getattr isas TargetISA.settings "settings" self;
  match settings with
  | None => raise (AttributeError "number_predicate")
  | Some s =>
      modify (upd_isas
        (alter (TargetISA.set_settings (Some (number_predicate pred s))) self))
  end.

(** ** Register banks (cdsl/registers.py, consumed) *)

(** [rc.index = i]. *)
Definition set_regclass_index (rc : ref) (i : nat) : M unit :=
  modify (upd_regclasses (alter (RegClass.set_index i) rc)).

(** Modelled from the spec: [RegBank.finish_regclasses] of registers.py,
    which is not part of isa.py.  It assigns the classes of the bank, in the
    order of [bank.classes], the contiguous block of indices that starts at
    [first_index]. *)
Definition finish_regclasses (bank : ref) (first_index : nat) : M unit :=
  classes ← getattr banks RegBank.classes "classes" bank;
  _ ← foldM (λ idx rc,
        set_regclass_index rc (idx + first_index) ;;
        mret (S idx)) 0%nat classes;
  mret tt.

(** ** class TargetISA *)

(** [recipe.number = n]. *)
Definition set_recipe_number (recipe : ref) (n : nat) : M unit :=
  modify (upd_recipes (alter (EncRecipe.set_number n) recipe)).

(** [instp.number = n]. *)
Definition set_pred_number (instp : ref) (n : nat) : M unit :=
  modify (upd_preds (alter (PredNode.set_number n) instp)).

(** [self.all_recipes.append(recipe)]. *)
Definition all_recipes_append (self recipe : ref) : M unit :=
  modify (upd_isas (alter (λ i,
    TargetISA.set_all_recipes ((.++ [recipe]) <$> TargetISA.all_recipes i) i)
    self)).

(** [self.all_instps.append(instp)]. *)
Definition all_instps_append (self instp : ref) : M unit :=
  modify (upd_isas (alter (λ i,
    TargetISA.set_all_instps ((.++ [instp]) <$> TargetISA.all_instps i) i)
    self)).

(** Collect and number all encoding recipes in use. *)
Definition _collect_encoding_recipes (self : ref) : M unit :=
  modify (upd_isas (alter (TargetISA.set_all_recipes (Some [])) self)) ;;
  let rcps : gset ref := ∅ in
  cpumodes ← getattr isas TargetISA.cpumodes "cpumodes" self;
  _ ← foldM (λ rcps cpumode,
        encodings ← getattr modes CPUMode.encodings "encodings" cpumode;
        foldM (λ (rcps : gset ref) enc,
          let recipe := Encoding.recipe enc in
          if decide (recipe ∈ rcps) then mret rcps
          else
            set_recipe_number recipe (size rcps) ;;
            let rcps := rcps ∪ {[recipe]} in
            all_recipes_append self recipe ;;
            mret rcps) rcps encodings) rcps cpumodes;
  mret tt.

(** Collect and number all predicates in use: sets [instp.number] for all
    used instruction predicates and places them in [self.all_instps] in
    numerical order; ensures that all ISA predicates have an assigned bit
    number in [self.settings].  In [if instp] and [if enc.isap], a predicate
    object is true and [None] is false. *)
Definition _collect_predicates (self : ref) : M unit :=
  modify (upd_isas (alter (TargetISA.set_all_instps (Some [])) self)) ;;
  let instps : gset ref := ∅ in
  cpumodes ← getattr isas TargetISA.cpumodes "cpumodes" self;
  _ ← foldM (λ instps cpumode,
        encodings ← getattr modes CPUMode.encodings "encodings" cpumode;
        foldM (λ (instps : gset ref) enc,
          instps ← match Encoding.instp enc with
                   | Some instp =>
                       if decide (instp ∈ instps) then mret instps
                       else
                         set_pred_number instp (size instps) ;;
                         let instps := instps ∪ {[instp]} in
                         all_instps_append self instp ;;
                         mret instps
                   | None => mret instps
                   end;
          match Encoding.isap enc with
          | Some isap => settings_number_predicate self isap
          | None => mret tt
          end ;;
          mret instps) instps encodings) instps cpumodes;
  mret tt.

(** Collect and number register classes. *)
Definition _collect_regclasses (self : ref) : M unit :=
  let rc_index := 0%nat in
  regbanks ← getattr isas TargetISA.regbanks "regbanks" self;
  _ ← foldM (λ rc_index bank,
        finish_regclasses bank rc_index ;;
        classes ← getattr banks RegBank.classes "classes" bank;
        mret (rc_index + length classes)%nat) rc_index regbanks;
  mret tt.

(** Finish the definition of a target ISA after adding all CPU modes and
    settings.  Returns [self]. *)
Definition finish (self : ref) : M ref :=
  _collect_encoding_recipes self ;;
  _collect_predicates self ;;
  _collect_regclasses self ;;
  mret self.

(** ** Instruction specifications (cdsl/ast.py and cdsl/instructions.py,
    consumed) *)

(** Instruction specifications for encodings: an [Apply] node (an instruction
    applied to operands) or a possibly bound instruction. *)
Module Apply.
Record t := mk {
  inst : Instruction.t;
  typevars : list ValueType;
  inst_predicate : option ref;
}.
End Apply.

Module MaybeBoundInst.
Record t := mk {
  inst : Instruction.t;
  typevars : list ValueType;
  all_typevars_bound : bool;
}.
End MaybeBoundInst.

Inductive InstSpec :=
| SpecApply (a : Apply.t)
| SpecInst (i : MaybeBoundInst.t).

(** Modelled from the spec: [fully_bound] of instructions.py, which is not
    part of isa.py.  The instruction must already be fully bound to concrete
    types; its type variables are taken directly. *)
Definition fully_bound (i : MaybeBoundInst.t)
    : M (Instruction.t * list ValueType) :=
  if MaybeBoundInst.all_typevars_bound i
  then mret (MaybeBoundInst.inst i, MaybeBoundInst.typevars i)
  else raise (AssertionError NotFullyBound).

(** ** class EncRecipe *)

Definition _verify_constraints (format : InstructionFormat.t)
    (seq : ConstraintSeq) : M (list OperandConstraint) :=
  let seq := match seq with
             | SeqTuple cs => cs
             | SeqSingle c => [c]
             end in
  forM_ seq (λ c,
    match c with
    | CInt c =>
        assert_ (bool_decide (c >= 0)) ConstraintError ;;
        if negb (InstructionFormat.has_value_list format)
        then assert_ (bool_decide (c < InstructionFormat.num_value_operands format))
                     ConstraintError
        else mret tt
    | CRegClass _ | CRegister _ _ => mret tt
    | COther _ => raise (AssertionError ConstraintError)
    end) ;;
  mret seq.

(** [EncRecipe.__init__]: the attribute values of the object under
    construction, or the assertion that rejects the arguments. *)
Definition EncRecipe_init (name : string) (format : InstructionFormat.t)
    (size : Z) (ins outs : ConstraintSeq) (branch_range : option (list Z))
    (instp isap : option ref) : M EncRecipe.t :=
  assert_ (bool_decide (size >= 0)) SizeError ;;
  match instp with
  | Some p =>
      ctx ← getattr preds PredNode.context "predicate_context" p;
      assert_ (bool_decide (ctx = CtxFormat format)) PredicateContextError
  | None => mret tt
  end ;;
  ins ← _verify_constraints format ins;
  (if negb (InstructionFormat.has_value_list format)
   then assert_ (bool_decide (Z.of_nat (length ins)
                              = InstructionFormat.num_value_operands format))
                ArityError
   else mret tt) ;;
  outs ← _verify_constraints format outs;
  mret (EncRecipe.mk name format size branch_range instp isap None ins outs).

(** [EncRecipe(...)]: a new recipe object. *)
Definition EncRecipe_new (name : string) (format : InstructionFormat.t)
    (size : Z) (ins outs : ConstraintSeq) (branch_range : option (list Z))
    (instp isap : option ref) : M ref :=
  obj ← EncRecipe_init name format size ins outs branch_range instp isap;
  w ← get_world;
  let r := fresh (dom (recipes w)) in
  modify (upd_recipes <[r := obj]>) ;;
  mret r.

(** ** class Encoding *)

(** Truth value of a [branch_range]: [None] and the empty sequence are
    false. *)
Definition branch_range_truthy (br : option (list Z)) : bool :=
  match br with
  | Some (_ :: _) => true
  | _ => false
  end.

(** The first block of [Encoding.__init__]: check for possible instruction
    predicates in [inst].  Yields the caller's [instp] combined with the
    predicate implied by an [Apply] node, the instruction and its type
    variables. *)
Definition resolve_inst (inst : InstSpec) (instp : option ref)
    : M (option ref * Instruction.t * list ValueType) :=
  match inst with
  | SpecApply a =>
      instp ← And_combine instp (Apply.inst_predicate a);
      mret (instp, Apply.inst a, Apply.typevars a)
  | SpecInst i =>
      '(i, tvs) ← fully_bound i;
      mret (instp, i, tvs)
  end.

(** [Encoding.__init__]. *)
Definition Encoding_init (cpumode : ref) (inst : InstSpec) (recipe : ref)
    (encbits : Z) (instp isap : option ref) : M Encoding.t :=
  w ← get_world;
  assert_ (bool_decide (cpumode ∈ dom (modes w))) NotACPUMode ;;
  assert_ (bool_decide (recipe ∈ dom (recipes w))) NotAnEncRecipe ;;
  '(instp, self_inst, self_typevars) ← resolve_inst inst instp;
  recipe_format ← getattr recipes EncRecipe.format "format" recipe;
  assert_ (bool_decide (Instruction.format self_inst = recipe_format))
          FormatMismatchError ;;
  (if Instruction.is_branch self_inst
   then
     br ← getattr recipes EncRecipe.branch_range "branch_range" recipe;
     assert_ (branch_range_truthy br) BranchRangeError
   else mret tt) ;;
  recipe_instp ← getattr recipes EncRecipe.instp "instp" recipe;
  self_instp ← And_combine recipe_instp instp;
  recipe_isap ← getattr recipes EncRecipe.isap "isap" recipe;
  self_isap ← And_combine recipe_isap isap;
  mret (Encoding.mk cpumode self_inst self_typevars recipe encbits
                    self_instp self_isap).

(** [Encoding.ctrl_typevar]: the controlling type variable of the encoding,
    or [None]. *)
Definition ctrl_typevar (e : Encoding.t) : option ValueType :=
  match Encoding.typevars e with
  | tv :: _ => Some tv
  | [] => None
  end.

(** ** class CPUMode *)

(** [CPUMode(name, isa)]: a new mode, appended to [isa.cpumodes]. *)
Definition CPUMode_new (name : string) (isa : ref) : M ref :=
  w ← get_world;
  let r := fresh (dom (modes w)) in
  modify (upd_modes <[r := CPUMode.mk name isa []]>) ;;
  cpumodes ← getattr isas TargetISA.cpumodes "cpumodes" isa;
  modify (upd_isas (alter (TargetISA.set_cpumodes (cpumodes ++ [r])) isa)) ;;
  mret r.

(** [CPUMode.enc]: add a new encoding to this CPU mode. *)
Definition enc (self : ref) (inst : InstSpec) (recipe : ref) (encbits : Z)
    (instp isap : option ref) : M unit :=
  e ← Encoding_init self inst recipe encbits instp isap;
  modify (upd_modes (alter (CPUMode.append_encoding e) self)).

(** [TargetISA(name, instruction_groups)]. *)
Definition TargetISA_new (name : string) (instruction_groups : list string)
    : M ref :=
  w ← get_world;
  let r := fresh (dom (isas w)) in
  modify (upd_isas <[r := TargetISA.mk name None instruction_groups [] []
                                      None None]>) ;;
  mret r.

(** * Functional description of the numbering passes *)

(** The scan order of the two collection passes: CPU modes in ISA-insertion
    order, then each mode's encodings in insertion order. *)
Definition encodings_of (w : World) (cpumodes : list ref) : list Encoding.t :=
  cpumodes ≫= (λ m, default [] (CPUMode.encodings <$> modes w !! m)).

Definition all_encodings (self : ref) (w : World) : list Encoding.t :=
  default [] ((λ i, encodings_of w (TargetISA.cpumodes i)) <$> isas w !! self).

(** Register classes in numbering order: banks in ISA-insertion order, then
    each bank's classes in declaration order. *)
Definition classes_of (w : World) (regbanks : list ref) : list ref :=
  regbanks ≫= (λ b, default [] (RegBank.classes <$> banks w !! b)).

(** The references a seen-set loop numbers, in the order it numbers them. *)
Fixpoint collect (seen : gset ref) (l : list ref) : list ref :=
  match l with
  | [] => []
  | r :: l =>
      if decide (r ∈ seen) then collect seen l
      else r :: collect (seen ∪ {[r]}) l
  end.

(** A list without its repetitions: every element at its first occurrence. *)
Fixpoint first_occurrences (l : list ref) : list ref :=
  match l with
  | [] => []
  | r :: l => r :: filter (λ x, x ≠ r) (first_occurrences l)
  end.

(** Write [k], [k+1], ... into the objects [l] denotes, in this order. *)
Fixpoint number_from {V} (set : nat → V → V) (k : nat) (l : list ref)
    (m : gmap ref V) : gmap ref V :=
  match l with
  | [] => m
  | r :: l => number_from set (S k) l (alter (set k) r m)
  end.

(** Registration of a sequence of ISA predicates with a settings group. *)
Definition register_all (isaps : list ref) (s : SettingGroup.t) : SettingGroup.t :=
  foldl (λ s p, number_predicate p s) s isaps.

(** The state in which [finish] leaves the store. *)
Definition finished (self : ref) (isa : TargetISA.t) (w : World) : World :=
  let encs := encodings_of w (TargetISA.cpumodes isa) in
  let rs := collect ∅ (Encoding.recipe <$> encs) in
  let ps := collect ∅ (omap Encoding.instp encs) in
  let cs := classes_of w (TargetISA.regbanks isa) in
  mkWorld
    (<[self := TargetISA.mk (TargetISA.name isa)
                 (register_all (omap Encoding.isap encs) <$> TargetISA.settings isa)
                 (TargetISA.instruction_groups isa)
                 (TargetISA.cpumodes isa) (TargetISA.regbanks isa)
                 (Some rs) (Some ps)]> (isas w))
    (modes w)
    (number_from EncRecipe.set_number 0 rs (recipes w))
    (number_from PredNode.set_number 0 ps (preds w))
    (banks w)
    (number_from RegClass.set_index 0 cs (regclasses w)).

(** What [finish] relies on: [self] is a [TargetISA] whose CPU modes and
    register banks are objects of the store, every encoding refers to an
    [EncRecipe] (asserted by [Encoding.__init__]) and to predicates of the
    store, and a settings group has been assigned if some encoding carries
    an ISA predicate. *)
Definition ready (self : ref) (w : World) : Prop :=
  match isas w !! self with
  | None => False
  | Some isa =>
      Forall (λ m, is_Some (modes w !! m)) (TargetISA.cpumodes isa)
      ∧ Forall (λ b, is_Some (banks w !! b)) (TargetISA.regbanks isa)
      ∧ Forall (λ e, is_Some (recipes w !! Encoding.recipe e))
               (all_encodings self w)
      ∧ Forall (λ p, is_Some (preds w !! p))
               (omap Encoding.instp (all_encodings self w))
      ∧ (is_Some (TargetISA.settings isa)
         ∨ omap Encoding.isap (all_encodings self w) = [])
  end.

#[global] Instance ready_dec self w : Decision (ready self w).
Proof. unfold ready. destruct (isas w !! self); apply _. Defined.

(** * Auxiliary definitions: the store after a loop, frames, invariants *)

(** [self.all_recipes] extended by [new]. *)
Definition extend_all_recipes (new : list ref) (i : TargetISA.t) : TargetISA.t :=
  TargetISA.set_all_recipes ((.++ new) <$> TargetISA.all_recipes i) i.

(** The store after a seen-set loop has scanned the recipes [rs]. *)
Definition recipes_numbered (self : ref) (seen : gset ref) (rs : list ref)
    (w : World) : World :=
  mkWorld (alter (extend_all_recipes (collect seen rs)) self (isas w)) (modes w)
          (number_from EncRecipe.set_number (size seen) (collect seen rs) (recipes w))
          (preds w) (banks w) (regclasses w).

(** [self.all_instps] extended by [new], and the ISA predicates [isaps]
    registered with [self.settings]. *)
Definition update_isa_preds (new isaps : list ref) (i : TargetISA.t)
    : TargetISA.t :=
  TargetISA.mk (TargetISA.name i)
    (register_all isaps <$> TargetISA.settings i)
    (TargetISA.instruction_groups i) (TargetISA.cpumodes i)
    (TargetISA.regbanks i) (TargetISA.all_recipes i)
    ((.++ new) <$> TargetISA.all_instps i).

(** The store after the predicate loop has scanned the encodings [encs]. *)
Definition preds_numbered (self : ref) (seen : gset ref)
    (encs : list Encoding.t) (w : World) : World :=
  mkWorld
    (alter (update_isa_preds (collect seen (omap Encoding.instp encs))
                             (omap Encoding.isap encs)) self (isas w))
    (modes w) (recipes w)
    (number_from PredNode.set_number (size seen)
       (collect seen (omap Encoding.instp encs)) (preds w))
    (banks w) (regclasses w).

(** A settings group is needed as soon as one ISA predicate is registered. *)
Definition settings_ok (self : ref) (w : World) (isaps : list ref) : Prop :=
  isaps = []
  ∨ ∃ isa, isas w !! self = Some isa ∧ is_Some (TargetISA.settings isa).

(** ** A small target, used to exercise the definitions

    One ISA (object 0) with two CPU modes.  Recipe 1 is used by three
    encodings in both modes, recipe 0 by two, recipe 2 by none.  Predicates
    0 and 2 are instruction predicates in use, predicate 1 is an ISA
    predicate, predicate 3 is unused.  Two register banks hold the classes
    [0; 1] and [2]. *)

Definition demo_format : InstructionFormat.t :=
  InstructionFormat.mk "Binary" false 2.

Definition demo_iadd : Instruction.t := Instruction.mk "iadd" demo_format false.

Definition demo_enc (cpumode recipe : ref) (encbits : Z)
    (instp isap : option ref) : Encoding.t :=
  Encoding.mk cpumode demo_iadd ["i32"%string] recipe encbits instp isap.

Definition demo_recipe (name : string) : EncRecipe.t :=
  EncRecipe.mk name demo_format 4 None None None None
    [CRegClass 0%nat; CRegClass 0%nat] [CInt 0].

Definition demo_world : World :=
  mkWorld
    {[ 0%nat := TargetISA.mk "riscv" (Some (SettingGroup.mk "riscv" []))
                  ["base"%string] [0%nat; 1%nat] [0%nat; 1%nat] None None ]}
    (<[ 0%nat := CPUMode.mk "RV32" 0%nat
                   [demo_enc 0 1 16 (Some 0%nat) None;
                    demo_enc 0 0 17 None (Some 1%nat);
                    demo_enc 0 1 18 (Some 0%nat) None] ]>
     {[ 1%nat := CPUMode.mk "RV64" 0%nat
                   [demo_enc 1 1 16 (Some 2%nat) (Some 1%nat);
                    demo_enc 1 0 17 (Some 0%nat) None] ]})
    (<[ 0%nat := demo_recipe "R0" ]>
     (<[ 1%nat := demo_recipe "R1" ]> {[ 2%nat := demo_recipe "R2" ]}))
    (<[ 0%nat := PredNode.mk (PLeaf "imm==0") (CtxFormat demo_format) None ]>
     (<[ 1%nat := PredNode.mk (PLeaf "has_m") (CtxSettings "riscv") None ]>
      (<[ 2%nat := PredNode.mk (PLeaf "imm<16") (CtxFormat demo_format) None ]>
       {[ 3%nat := PredNode.mk (PLeaf "imm>0") (CtxFormat demo_format) None ]})))
    (<[ 0%nat := RegBank.mk "IntRegs" [0%nat; 1%nat] ]>
     {[ 1%nat := RegBank.mk "FloatRegs" [2%nat] ]})
    (<[ 0%nat := RegClass.mk "GPR" None ]>
     (<[ 1%nat := RegClass.mk "GPR8" None ]>
      {[ 2%nat := RegClass.mk "FPR" None ]})).

Definition recipe_number (w : World) (r : ref) : option nat :=
  recipes w !! r ≫= EncRecipe.number.

Definition pred_number (w : World) (p : ref) : option nat :=
  preds w !! p ≫= PredNode.number.

Definition regclass_index (w : World) (c : ref) : option nat :=
  regclasses w !! c ≫= RegClass.index.

Definition isa_all_recipes (w : World) (self : ref) : option (list ref) :=
  isas w !! self ≫= TargetISA.all_recipes.

Definition isa_all_instps (w : World) (self : ref) : option (list ref) :=
  isas w !! self ≫= TargetISA.all_instps.

(** The recipes of all encodings, in scan order, with repetitions. *)
Definition scanned_recipes (self : ref) (w : World) : list ref :=
  Encoding.recipe <$> all_encodings self w.

(** The instruction predicates of all encodings that have one, in scan
    order, with repetitions. *)
Definition scanned_instps (self : ref) (w : World) : list ref :=
  omap Encoding.instp (all_encodings self w).

(** A target without register banks and without ISA predicates: one ISA
    (object 0) with two CPU modes; recipe 1 is used in both modes, recipe 0
    in the first, recipe 2 nowhere; predicate 0 is used by two encodings. *)
Definition plain_world : World :=
  mkWorld
    {[ 0%nat := TargetISA.mk "riscv" None ["base"%string] [0%nat; 1%nat] []
                  None None ]}
    (<[ 0%nat := CPUMode.mk "RV32" 0%nat
                   [demo_enc 0 1 16 (Some 0%nat) None;
                    demo_enc 0 0 17 None None] ]>
     {[ 1%nat := CPUMode.mk "RV64" 0%nat
                   [demo_enc 1 1 16 (Some 0%nat) None] ]})
    (<[ 0%nat := demo_recipe "R0" ]>
     (<[ 1%nat := demo_recipe "R1" ]> {[ 2%nat := demo_recipe "R2" ]}))
    {[ 0%nat := PredNode.mk (PLeaf "imm==0") (CtxFormat demo_format) None ]}
    ∅ ∅.

(** The store [plain_world] is in after [finish]. *)
Definition plain_finished : World :=
  Eval vm_compute in
    match finish 0%nat plain_world with
    | inr (_, w) => w
    | inl _ => plain_world
    end.

(** The register classes of the banks of an ISA. *)
Definition isa_classes (self : ref) (w : World) : list ref :=
  default [] ((λ i, classes_of w (TargetISA.regbanks i)) <$> isas w !! self).

(** The ISA predicates of all encodings that have one, in scan order. *)
Definition scanned_isaps (self : ref) (w : World) : list ref :=
  omap Encoding.isap (all_encodings self w).

(** Two recipes that differ in [number] at most. *)
Definition same_recipe (r r' : EncRecipe.t) : Prop :=
  EncRecipe.name r' = EncRecipe.name r
  ∧ EncRecipe.format r' = EncRecipe.format r
  ∧ EncRecipe.size r' = EncRecipe.size r
  ∧ EncRecipe.branch_range r' = EncRecipe.branch_range r
  ∧ EncRecipe.instp r' = EncRecipe.instp r
  ∧ EncRecipe.isap r' = EncRecipe.isap r
  ∧ EncRecipe.ins r' = EncRecipe.ins r
  ∧ EncRecipe.outs r' = EncRecipe.outs r.

(** Two predicates that differ in [number] at most. *)
Definition same_pred (p p' : PredNode.t) : Prop :=
  PredNode.expr p' = PredNode.expr p
  ∧ PredNode.context p' = PredNode.context p.

(** What [finish] does not change in the [TargetISA] object itself. *)
Definition same_isa_definition (i i' : TargetISA.t) : Prop :=
  TargetISA.name i' = TargetISA.name i
  ∧ TargetISA.instruction_groups i' = TargetISA.instruction_groups i
  ∧ TargetISA.cpumodes i' = TargetISA.cpumodes i
  ∧ TargetISA.regbanks i' = TargetISA.regbanks i.

(** The objects of a store are those of [m], changed by [same] at most, and
    not changed at all outside [touched]. *)
Definition store_frame {V} (same : V → V → Prop) (touched : list ref)
    (m m' : gmap ref V) : Prop :=
  ∀ r, match m !! r with
       | None => m' !! r = None
       | Some v => ∃ v', m' !! r = Some v' ∧ same v v' ∧ (r ∉ touched → v' = v)
       end.

(** [And.combine] leaves every object alone and creates at most one
    predicate. *)
Definition preds_extended (w w' : World) : Prop :=
  isas w' = isas w ∧ modes w' = modes w ∧ recipes w' = recipes w
  ∧ banks w' = banks w ∧ regclasses w' = regclasses w
  ∧ preds w ⊆ preds w'.

(** The last block of [Encoding.__init__], once the checks have passed. *)
Definition combine_predicates (cpumode : ref) (i : Instruction.t)
    (tvs : list ValueType) (recipe : ref) (rcp : EncRecipe.t) (encbits : Z)
    (instp isap : option ref) : M Encoding.t :=
  self_instp ← And_combine (EncRecipe.instp rcp) instp;
  self_isap ← And_combine (EncRecipe.isap rcp) isap;
  mret (Encoding.mk cpumode i tvs recipe encbits self_instp self_isap).

(** Every result of a computation is related to the store it started in. *)
Definition preserves (R : World → World → Prop) {A} (m : M A) : Prop :=
  ∀ w a w', m w = inr (a, w') → R w w'.

(** The definitions are kept: the CPU modes with their encodings are
    untouched and the recipes are the same objects, changed in [number] at
    most. *)
Definition definitions_kept (w w' : World) : Prop :=
  modes w' = modes w
  ∧ ∀ r, option_Forall2 same_recipe (recipes w !! r) (recipes w' !! r).

(** The operations by which a target definition is built and finished. *)
Inductive api_step : World → World → Prop :=
| step_TargetISA name groups w r w' :
    TargetISA_new name groups w = inr (r, w') → api_step w w'
| step_settings isa s w :
    api_step w (upd_isas (alter (TargetISA.set_settings (Some s)) isa) w)
| step_CPUMode name isa w r w' :
    CPUMode_new name isa w = inr (r, w') → api_step w w'
| step_EncRecipe name format size ins outs branch_range instp isap w r w' :
    EncRecipe_new name format size ins outs branch_range instp isap w
    = inr (r, w') →
    api_step w w'
| step_enc self inst recipe encbits instp isap w w' :
    enc self inst recipe encbits instp isap w = inr (tt, w') → api_step w w'
| step_finish self w r w' :
    finish self w = inr (r, w') → api_step w w'.

(** All encodings of all CPU modes refer to a recipe, and [P] holds of the
    instruction and the recipe. *)
Definition encodings_satisfy (P : Instruction.t → EncRecipe.t → Prop)
    (w : World) : Prop :=
  ∀ m cm e, modes w !! m = Some cm → e ∈ CPUMode.encodings cm →
    ∃ rcp, recipes w !! Encoding.recipe e = Some rcp ∧ P (Encoding.inst e) rcp.

(** The two checks of [Encoding.__init__]. *)
Definition format_matches (i : Instruction.t) (rcp : EncRecipe.t) : Prop :=
  Instruction.format i = EncRecipe.format rcp.

Definition branch_has_range (i : Instruction.t) (rcp : EncRecipe.t) : Prop :=
  Instruction.is_branch i = true → is_Some (EncRecipe.branch_range rcp).

(** An instruction of another format than the recipes of the small target. *)
Definition demo_unary : Instruction.t :=
  Instruction.mk "ineg" (InstructionFormat.mk "Unary" false 1) false.

(** Branch instructions, one of the format of the recipes of the small
    target and one of another format. *)
Definition demo_branch : Instruction.t :=
  Instruction.mk "br_icmp" demo_format true.

Definition demo_jump : Instruction.t :=
  Instruction.mk "jump" (InstructionFormat.mk "Jump" false 0) true.

(** In the store [w], [c] is AND([a], [b]): the other operand if one is
    absent, and a conjunction node over the two, not yet numbered, if both
    are present. *)
Definition is_conjunction (w : World) (a b c : option ref) : Prop :=
  match a, b with
  | None, _ => c = b
  | Some _, None => c = a
  | Some p, Some q =>
      ∃ r node, c = Some r ∧ preds w !! r = Some node
                ∧ PredNode.expr node = PAnd [p; q]
                ∧ PredNode.number node = None
  end.

(** A constraint sequence as a tuple. *)
Definition constraint_list (seq : ConstraintSeq) : list OperandConstraint :=
  match seq with
  | SeqTuple cs => cs
  | SeqSingle c => [c]
  end.

(** A constraint a recipe of this format may carry: a tied operand number in
    range, a register class, or a fixed register. *)
Definition valid_constraint (format : InstructionFormat.t)
    (c : OperandConstraint) : Prop :=
  match c with
  | CInt z =>
      0 ≤ z
      ∧ (InstructionFormat.has_value_list format = false →
         z < InstructionFormat.num_value_operands format)
  | CRegClass _ | CRegister _ _ => True
  | COther _ => False
  end.

(** Formats with a fixed number of value operands fix the length of [ins]. *)
Definition valid_arity (format : InstructionFormat.t)
    (ins : list OperandConstraint) : Prop :=
  InstructionFormat.has_value_list format = false →
  Z.of_nat (length ins) = InstructionFormat.num_value_operands format.

Definition valid_constraints (format : InstructionFormat.t)
    (ins outs : list OperandConstraint) : Prop :=
  Forall (valid_constraint format) ins
  ∧ Forall (valid_constraint format) outs
  ∧ valid_arity format ins.

(** The outcome of the check of [instp], if one is given. *)
Definition instp_check (format : InstructionFormat.t) (instp : option ref)
    (w : World) : option exn :=
  match instp with
  | None => None
  | Some p =>
      match preds w !! p with
      | None => Some (AttributeError "predicate_context")
      | Some node =>
          if decide (PredNode.context node = CtxFormat format) then None
          else Some (AssertionError PredicateContextError)
      end
  end.

(** [Q] holds of all recipes of the store. *)
Definition recipes_satisfy (Q : EncRecipe.t → Prop) (w : World) : Prop :=
  ∀ r rcp, recipes w !! r = Some rcp → Q rcp.

(** The validation of a recipe holds of its own fields. *)
Definition recipe_valid (rcp : EncRecipe.t) : Prop :=
  valid_constraints (EncRecipe.format rcp) (EncRecipe.ins rcp)
    (EncRecipe.outs rcp).

(** The small target with one more recipe (object 5), for branches, whose
    [branch_range] is the empty tuple. *)
Definition branch_world : World :=
  upd_recipes <[5%nat := EncRecipe.mk "Br" demo_format 4 (Some []) None None
                           None [CRegClass 0%nat; CRegClass 0%nat] []]>
    demo_world.

(** Every encoding is held by the CPU mode that its [cpumode] field names. *)
Definition encodings_owned (w : World) : Prop :=
  map_Forall (λ m cm,
    Forall (λ e, Encoding.cpumode e = m) (CPUMode.encodings cm)) (modes w).

(** The CPU modes an ISA lists are objects of the store, each listed once and
    naming this ISA in its [isa] field; the register banks it lists are
    objects of the store. *)
Definition modes_registered (w : World) : Prop :=
  map_Forall (λ a i,
    NoDup (TargetISA.cpumodes i)
    ∧ Forall (λ m, CPUMode.isa <$> modes w !! m = Some a)
             (TargetISA.cpumodes i)
    ∧ Forall (λ b, is_Some (banks w !! b)) (TargetISA.regbanks i)) (isas w).

(** The CPU modes and the register banks are untouched, and every ISA is the
    same object, with its name, instruction groups, CPU modes and register
    banks. *)
Definition structure_kept (w w' : World) : Prop :=
  modes w' = modes w
  ∧ banks w' = banks w
  ∧ ∀ a, option_Forall2 same_isa_definition (isas w !! a) (isas w' !! a).

(** The store before any object is made. *)
Definition empty_world : World := mkWorld ∅ ∅ ∅ ∅ ∅ ∅.

(** [plain_world] after one more [enc] on its last CPU mode, with the recipe
    (object 2) that was unused so far. *)
Definition plain_world_extended : World :=
  Eval vm_compute in
    match enc 1%nat (SpecInst (MaybeBoundInst.mk demo_iadd ["i64"%string] true))
            2%nat 33 None None plain_world with
    | inr (_, w) => w
    | inl _ => plain_world
    end.

(** Every CPU mode of the store is listed by the ISA that its [isa] field
    names. *)
Definition modes_listed (w : World) : Prop :=
  map_Forall (λ m cm,
    m ∈ default [] (TargetISA.cpumodes <$> isas w !! CPUMode.isa cm))
    (modes w).

(** Lists are appended to and not changed otherwise: every ISA is still an
    object of the store and lists the CPU modes it listed, at their
    positions; every CPU mode is still an object of the store, with its name
    and its ISA, and lists the encodings it listed, at their positions. *)
Definition lists_grow (w w' : World) : Prop :=
  (∀ a i, isas w !! a = Some i →
     ∃ i', isas w' !! a = Some i'
           ∧ TargetISA.cpumodes i `prefix_of` TargetISA.cpumodes i')
  ∧ (∀ m cm, modes w !! m = Some cm →
     ∃ cm', modes w' !! m = Some cm'
            ∧ CPUMode.name cm' = CPUMode.name cm
            ∧ CPUMode.isa cm' = CPUMode.isa cm
            ∧ CPUMode.encodings cm `prefix_of` CPUMode.encodings cm').

(** * Properties of the functional description *)

Section collect.
Implicit Types (seen : gset ref) (l : list ref).

Lemma collect_app seen l1 l2 :
  collect seen (l1 ++ l2)
  = collect seen l1 ++ collect (seen ∪ list_to_set (collect seen l1)) l2.
Proof.
  revert seen. induction l1 as [|r l1 IH]; intros seen; simpl.
  - f_equal. set_solver.
  - destruct (decide (r ∈ seen)); simpl; rewrite IH; [done|].
    do 3 f_equal. set_solver.
Qed.

Lemma elem_of_collect seen l x : x ∈ collect seen l ↔ x ∈ l ∧ x ∉ seen.
Proof.
  revert seen. induction l as [|r l IH]; intros seen; simpl.
  - set_solver.
  - destruct (decide (r ∈ seen)).
    + rewrite IH, elem_of_cons. naive_solver.
    + rewrite !elem_of_cons, IH, elem_of_union, elem_of_singleton.
      destruct (decide (x = r)); naive_solver.
Qed.

Lemma NoDup_collect seen l : NoDup (collect seen l).
Proof.
  revert seen. induction l as [|r l IH]; intros seen; simpl.
  - constructor.
  - destruct (decide (r ∈ seen)); [apply IH|].
    constructor; [|apply IH].
    rewrite elem_of_collect. intros [_ Hn]. apply Hn.
    apply elem_of_union_r, elem_of_singleton. reflexivity.
Qed.

Lemma size_collect seen l :
  size (seen ∪ list_to_set (collect seen l)) = (size seen + length (collect seen l))%nat.
Proof.
  rewrite size_union.
  - f_equal. apply size_list_to_set, NoDup_collect.
  - intros x Hx. rewrite elem_of_list_to_set, elem_of_collect. tauto.
Qed.

Lemma collect_first_occurrences seen l :
  collect seen l = filter (λ x, x ∉ seen) (first_occurrences l).
Proof.
  revert seen. induction l as [|r l IH]; intros seen; simpl; [done|].
  destruct (decide (r ∈ seen)) as [Hr|Hr].
  - rewrite filter_cons_False by tauto.
    rewrite list_filter_filter, IH. apply list_filter_iff. set_solver.
  - rewrite filter_cons_True by done. f_equal.
    rewrite list_filter_filter, IH. apply list_filter_iff. set_solver.
Qed.

Lemma collect_empty l : collect ∅ l = first_occurrences l.
Proof.
  rewrite collect_first_occurrences.
  induction (first_occurrences l) as [|x k IH]; [done|].
  rewrite filter_cons_True by apply not_elem_of_empty. by f_equal.
Qed.

(** An element whose first occurrence comes after the prefix [l1] is placed
    right after the distinct elements of [l1]. *)
Lemma first_occurrences_split l1 r l2 :
  r ∉ l1 →
  first_occurrences (l1 ++ r :: l2) !! length (first_occurrences l1) = Some r.
Proof.
  intros Hr. rewrite <-!collect_empty, collect_app. simpl.
  rewrite decide_False.
  - by rewrite lookup_app_r, Nat.sub_diag by done.
  - rewrite elem_of_union, elem_of_list_to_set, elem_of_collect. set_solver.
Qed.

Lemma elem_of_first_occurrences l x : x ∈ first_occurrences l ↔ x ∈ l.
Proof. rewrite <-collect_empty, elem_of_collect. set_solver. Qed.

Lemma NoDup_first_occurrences l : NoDup (first_occurrences l).
Proof. rewrite <-collect_empty. apply NoDup_collect. Qed.

End collect.

Section number_from.
Context {V : Type} (set : nat → V → V).
Hypothesis set_set : ∀ a b x, set a (set b x) = set a x.
Implicit Types (l : list ref) (m : gmap ref V).

Lemma number_from_app k l1 l2 m :
  number_from set k (l1 ++ l2) m
  = number_from set (k + length l1) l2 (number_from set k l1 m).
Proof.
  revert k m. induction l1 as [|r l1 IH]; intros k m; simpl.
  - by rewrite Nat.add_0_r.
  - rewrite IH. replace (S k + length l1)%nat with (k + S (length l1))%nat by lia.
    done.
Qed.

Lemma number_from_lookup_notin k l m r :
  r ∉ l → number_from set k l m !! r = m !! r.
Proof.
  revert k m. induction l as [|x l IH]; intros k m Hr; simpl; [done|].
  apply not_elem_of_cons in Hr as [Hx Hr].
  rewrite IH by done. by rewrite lookup_alter_ne.
Qed.

Lemma number_from_lookup k l m i r :
  NoDup l → l !! i = Some r →
  number_from set k l m !! r = set (k + i) <$> m !! r.
Proof.
  revert k m i. induction l as [|x l IH]; intros k m i Hnd Hi; [done|].
  apply NoDup_cons in Hnd as [Hx Hnd]. destruct i as [|i]; simpl in *.
  - injection Hi as ->.
    rewrite number_from_lookup_notin by done.
    by rewrite lookup_alter_eq, Nat.add_0_r.
  - rewrite (IH _ _ i) by done.
    assert (x ≠ r) by (intros ->; apply Hx; by eapply list_elem_of_lookup_2).
    rewrite lookup_alter_ne by done.
    by replace (S k + i)%nat with (k + S i)%nat by lia.
Qed.

(** Each object is left as it was or has had its number set. *)
Lemma number_from_lookup_cases k l m r :
  number_from set k l m !! r = m !! r
  ∨ ∃ j, number_from set k l m !! r = set j <$> m !! r.
Proof.
  revert k m. induction l as [|x l IH]; intros k m; simpl; [by left|].
  destruct (decide (x = r)) as [->|Hne].
  - right. destruct (IH (S k) (alter (set k) r m)) as [->|[j ->]].
    + exists k. by rewrite lookup_alter_eq.
    + exists j. rewrite lookup_alter_eq. destruct (m !! r); simpl; [|done].
      by rewrite set_set.
  - destruct (IH (S k) (alter (set k) x m)) as [->|[j ->]].
    + left. by rewrite lookup_alter_ne.
    + right. exists j. by rewrite lookup_alter_ne.
Qed.

Lemma number_from_dom k l m : dom (number_from set k l m) = dom m.
Proof.
  revert k m. induction l as [|x l IH]; intros k m; simpl; [done|].
  rewrite IH. apply dom_alter_L.
Qed.

(** A number written before the loop is overwritten by the loop. *)
Lemma number_from_absorb k l m j r :
  r ∈ l → number_from set k l (alter (set j) r m) = number_from set k l m.
Proof.
  revert k m. induction l as [|x l IH]; intros k m Hr; simpl.
  - by apply elem_of_nil in Hr.
  - destruct (decide (x = r)) as [->|Hne].
    + f_equal. rewrite alter_alter_eq. apply alter_ext.
      intros v _. apply set_set.
    + apply elem_of_cons in Hr as [->|Hr]; [done|].
      rewrite alter_alter_ne by done. by apply IH.
Qed.

Lemma number_from_absorb_all k l k' l' m :
  l' ⊆ l →
  number_from set k l (number_from set k' l' m) = number_from set k l m.
Proof.
  revert k' m. induction l' as [|x l' IH]; intros k' m Hsub; simpl; [done|].
  rewrite IH by set_solver. apply number_from_absorb. set_solver.
Qed.

Lemma number_from_idemp k l m :
  number_from set k l (number_from set k l m) = number_from set k l m.
Proof. by apply number_from_absorb_all. Qed.

End number_from.

Lemma EncRecipe_set_set a b r :
  EncRecipe.set_number a (EncRecipe.set_number b r) = EncRecipe.set_number a r.
Proof. done. Qed.

Lemma PredNode_set_set a b p :
  PredNode.set_number a (PredNode.set_number b p) = PredNode.set_number a p.
Proof. done. Qed.

Lemma RegClass_set_set a b rc :
  RegClass.set_index a (RegClass.set_index b rc) = RegClass.set_index a rc.
Proof. done. Qed.

(** * The passes compute the functional description *)

Ltac munfold :=
  unfold mbind, M_bind, mret, M_ret, modify, get_world, raise, assert_.

Lemma bind_run {A B} (m : M A) (k : A → M B) w :
  (m ≫= k) w = match m w with inl e => inl e | inr (a, w') => k a w' end.
Proof. done. Qed.

Lemma getattr_run {O A} (store : World → gmap ref O) (proj : O → A) attr r w o :
  store w !! r = Some o → getattr store proj attr r w = inr (proj o, w).
Proof. unfold getattr. by intros ->. Qed.

Lemma foldM_cons {A B} (body : B → A → M B) b x l w :
  foldM body b (x :: l) w
  = match body b x w with
    | inl e => inl e
    | inr (b', w') => foldM body b' l w'
    end.
Proof. done. Qed.

Lemma extend_all_recipes_nil i : extend_all_recipes [] i = i.
Proof.
  destruct i as [? ? ? ? ? [l|] ?]; unfold extend_all_recipes; simpl; [|done].
  by rewrite app_nil_r.
Qed.

Lemma extend_all_recipes_app new1 new2 i :
  extend_all_recipes new2 (extend_all_recipes new1 i)
  = extend_all_recipes (new1 ++ new2) i.
Proof.
  destruct i as [? ? ? ? ? [l|] ?]; unfold extend_all_recipes; simpl; [|done].
  by rewrite <-app_assoc.
Qed.

Lemma recipes_numbered_nil self seen w : recipes_numbered self seen [] w = w.
Proof.
  destruct w; unfold recipes_numbered; simpl. f_equal. apply alter_id.
  intros; apply extend_all_recipes_nil.
Qed.

Lemma recipes_numbered_app self seen rs1 rs2 w :
  recipes_numbered self (seen ∪ list_to_set (collect seen rs1)) rs2
    (recipes_numbered self seen rs1 w)
  = recipes_numbered self seen (rs1 ++ rs2) w.
Proof.
  unfold recipes_numbered; simpl. rewrite collect_app, size_collect. f_equal.
  - rewrite alter_alter_eq. apply alter_ext. intros i _.
    apply extend_all_recipes_app.
  - by rewrite number_from_app.
Qed.

Lemma collect_cons_in (seen : gset ref) r l :
  r ∈ seen → collect seen (r :: l) = collect seen l.
Proof. intros. simpl. by rewrite decide_True. Qed.

Lemma collect_cons_notin (seen : gset ref) r l :
  r ∉ seen → collect seen (r :: l) = r :: collect (seen ∪ {[r]}) l.
Proof. intros. simpl. by rewrite decide_False. Qed.

Lemma recipes_numbered_cons_notin self seen r rs w :
  r ∉ seen →
  recipes_numbered self seen (r :: rs) w
  = recipes_numbered self (seen ∪ {[r]}) rs
      (upd_isas (alter (λ i, TargetISA.set_all_recipes
                          ((.++ [r]) <$> TargetISA.all_recipes i) i) self)
         (upd_recipes (alter (EncRecipe.set_number (size seen)) r) w)).
Proof.
  intros Hr. unfold recipes_numbered. rewrite collect_cons_notin by done.
  simpl. rewrite size_union, size_singleton by set_solver. f_equal.
  - rewrite alter_alter_eq. apply alter_ext. intros i _. symmetry.
    apply (extend_all_recipes_app [_]).
  - by rewrite Nat.add_1_r.
Qed.

Lemma recipes_inner_run self encs : ∀ (seen : gset ref) w,
  foldM (λ (rcps : gset ref) enc,
          let recipe := Encoding.recipe enc in
          if decide (recipe ∈ rcps) then mret rcps
          else
            set_recipe_number recipe (size rcps) ;;
            let rcps := rcps ∪ {[recipe]} in
            all_recipes_append self recipe ;;
            mret rcps) seen encs w
  = inr (seen ∪ list_to_set (collect seen (Encoding.recipe <$> encs)),
         recipes_numbered self seen (Encoding.recipe <$> encs) w).
Proof.
  induction encs as [|e encs IH]; intros seen w.
  - rewrite recipes_numbered_nil. simpl. munfold. do 2 f_equal. set_solver.
  - rewrite foldM_cons, fmap_cons. cbv zeta.
    destruct (decide (Encoding.recipe e ∈ seen)) as [Hin|Hin].
    + rewrite collect_cons_in by done.
      unfold recipes_numbered. rewrite collect_cons_in by done. apply IH.
    + rewrite !bind_run. unfold set_recipe_number, all_recipes_append, modify.
      etrans; [apply IH|].
      rewrite collect_cons_notin, recipes_numbered_cons_notin by done.
      do 2 f_equal. set_solver.
Qed.

Lemma encodings_of_cons w m l :
  encodings_of w (m :: l)
  = default [] (CPUMode.encodings <$> modes w !! m) ++ encodings_of w l.
Proof. done. Qed.

Lemma encodings_of_modes w w' l :
  modes w' = modes w → encodings_of w' l = encodings_of w l.
Proof. unfold encodings_of. by intros ->. Qed.

Lemma recipes_outer_run self cpumodes : ∀ (seen : gset ref) w,
  Forall (λ m, is_Some (modes w !! m)) cpumodes →
  foldM (λ (rcps : gset ref) cpumode,
        encodings ← getattr modes CPUMode.encodings "encodings" cpumode;
        foldM (λ (rcps : gset ref) enc,
          let recipe := Encoding.recipe enc in
          if decide (recipe ∈ rcps) then mret rcps
          else
            set_recipe_number recipe (size rcps) ;;
            let rcps := rcps ∪ {[recipe]} in
            all_recipes_append self recipe ;;
            mret rcps) rcps encodings) seen cpumodes w
  = inr (seen ∪ list_to_set
                  (collect seen (Encoding.recipe <$> encodings_of w cpumodes)),
         recipes_numbered self seen
           (Encoding.recipe <$> encodings_of w cpumodes) w).
Proof.
  induction cpumodes as [|m cpumodes IH]; intros seen w Hm.
  - rewrite recipes_numbered_nil. simpl. munfold. do 2 f_equal. set_solver.
  - apply Forall_cons in Hm as [[cm Hcm] Hm].
    rewrite foldM_cons, bind_run.
    rewrite (getattr_run _ _ _ _ _ _ Hcm), recipes_inner_run.
    rewrite IH by done.
    rewrite encodings_of_cons, Hcm. simpl default.
    rewrite (encodings_of_modes w) by done.
    rewrite fmap_app, recipes_numbered_app, collect_app.
    do 2 f_equal. set_solver.
Qed.

Lemma collect_encoding_recipes_run self w isa :
  isas w !! self = Some isa →
  Forall (λ m, is_Some (modes w !! m)) (TargetISA.cpumodes isa) →
  _collect_encoding_recipes self w
  = inr (tt,
         mkWorld
           (<[self := TargetISA.set_all_recipes
                (Some (collect ∅ (Encoding.recipe
                                   <$> encodings_of w (TargetISA.cpumodes isa))))
                isa]> (isas w))
           (modes w)
           (number_from EncRecipe.set_number 0
              (collect ∅ (Encoding.recipe
                           <$> encodings_of w (TargetISA.cpumodes isa)))
              (recipes w))
           (preds w) (banks w) (regclasses w)).
Proof.
  intros Hisa Hm. unfold _collect_encoding_recipes. cbv zeta.
  rewrite bind_run. unfold modify at 1. rewrite bind_run.
  erewrite getattr_run
    by (unfold upd_isas; simpl; rewrite lookup_alter_eq, Hisa; reflexivity).
  rewrite bind_run, recipes_outer_run by done.
  rewrite (encodings_of_modes w) by done.
  unfold recipes_numbered, upd_isas. rewrite size_empty.
  cbn [isas modes recipes preds banks regclasses]. unfold mret, M_ret.
  do 3 f_equal.
  rewrite alter_alter_eq. apply map_eq. intros r.
  destruct (decide (r = self)) as [->|Hne].
  - rewrite lookup_alter_eq, lookup_insert_eq, Hisa. done.
  - by rewrite lookup_alter_ne, lookup_insert_ne.
Qed.

Lemma update_isa_preds_nil i : update_isa_preds [] [] i = i.
Proof.
  destruct i as [? [s|] ? ? ? ? [l|]]; unfold update_isa_preds; simpl;
    by rewrite ?app_nil_r.
Qed.

Lemma update_isa_preds_app new1 isaps1 new2 isaps2 i :
  update_isa_preds new2 isaps2 (update_isa_preds new1 isaps1 i)
  = update_isa_preds (new1 ++ new2) (isaps1 ++ isaps2) i.
Proof.
  destruct i as [? [s|] ? ? ? ? [l|]]; unfold update_isa_preds, register_all;
    simpl; by rewrite ?foldl_app, <-?app_assoc.
Qed.

Lemma preds_numbered_nil self seen w : preds_numbered self seen [] w = w.
Proof.
  destruct w; unfold preds_numbered; simpl. f_equal. apply alter_id.
  intros; apply update_isa_preds_nil.
Qed.

Lemma preds_numbered_app self seen encs1 encs2 w :
  preds_numbered self
    (seen ∪ list_to_set (collect seen (omap Encoding.instp encs1))) encs2
    (preds_numbered self seen encs1 w)
  = preds_numbered self seen (encs1 ++ encs2) w.
Proof.
  unfold preds_numbered; simpl.
  rewrite !omap_app, collect_app, size_collect. f_equal.
  - rewrite alter_alter_eq. apply alter_ext. intros i _.
    apply update_isa_preds_app.
  - by rewrite number_from_app.
Qed.

Lemma settings_ok_app_l self w l1 l2 :
  settings_ok self w (l1 ++ l2) → settings_ok self w l1.
Proof.
  intros [Hnil|?]; [|by right]. left. by apply app_eq_nil in Hnil as [].
Qed.

Lemma settings_ok_app_r self seen encs w l1 l2 :
  settings_ok self w (l1 ++ l2) →
  settings_ok self (preds_numbered self seen encs w) l2.
Proof.
  intros [Hnil|(isa & Hisa & Hs)].
  - left. by apply app_eq_nil in Hnil as [].
  - right. unfold preds_numbered; simpl. rewrite lookup_alter_eq, Hisa.
    eexists. split; [done|]. simpl. by apply fmap_is_Some.
Qed.

(** The second half of the loop body: [if enc.isap: ...]. *)
Lemma register_isap_run self (isap : option ref) w :
  settings_ok self w (option_list isap) →
  match isap with
  | Some isap => settings_number_predicate self isap
  | None => mret tt
  end w
  = inr (tt, upd_isas (alter (update_isa_preds [] (option_list isap)) self) w).
Proof.
  intros Hok. destruct isap as [q|]; simpl.
  - destruct Hok as [?|(isa & Hisa & [s Hs])]; [done|].
    unfold settings_number_predicate. rewrite bind_run.
    rewrite (getattr_run _ _ _ _ _ _ Hisa), Hs. unfold modify, upd_isas.
    do 3 f_equal. apply alter_ext. intros i Hi.
    assert (i = isa) as -> by congruence.
    destruct isa as [? ? ? ? ? ? [l|]]; simpl in *; subst;
      unfold update_isa_preds, TargetISA.set_settings; simpl;
      by rewrite ?app_nil_r.
  - munfold. do 2 f_equal. destruct w; unfold upd_isas; simpl. f_equal.
    symmetry. apply alter_id. intros; apply update_isa_preds_nil.
Qed.

Lemma all_instps_append_update p i :
  TargetISA.set_all_instps ((.++ [p]) <$> TargetISA.all_instps i) i
  = update_isa_preds [p] [] i.
Proof. by destruct i as [? [s|] ? ? ? ? [l|]]. Qed.

Lemma settings_ok_upd self w f isaps :
  settings_ok self w isaps →
  settings_ok self
    (upd_isas (alter (λ i, TargetISA.set_all_instps
                         (f <$> TargetISA.all_instps i) i) self) w) isaps.
Proof.
  intros [?|(isa & Hisa & Hs)]; [by left|right].
  unfold upd_isas; simpl. rewrite lookup_alter_eq, Hisa. by eexists.
Qed.

(** One iteration of the predicate loop. *)
Lemma preds_body_run self (seen : gset ref) e w :
  settings_ok self w (omap Encoding.isap [e]) →
  (instps ← match Encoding.instp e with
            | Some instp =>
                if decide (instp ∈ seen) then mret seen
                else
                  set_pred_number instp (size seen) ;;
                  let instps := seen ∪ {[instp]} in
                  all_instps_append self instp ;;
                  mret instps
            | None => mret seen
            end;
   match Encoding.isap e with
   | Some isap => settings_number_predicate self isap
   | None => mret tt
   end ;;
   mret instps) w
  = inr (seen ∪ list_to_set (collect seen (omap Encoding.instp [e])),
         preds_numbered self seen [e] w).
Proof.
  intros Hok.
  assert (omap Encoding.isap [e] = option_list (Encoding.isap e)) as Hisaps
    by (simpl; by destruct (Encoding.isap e)).
  rewrite Hisaps in Hok.
  assert (∀ (seen' : gset ref) w',
    settings_ok self w' (option_list (Encoding.isap e)) →
    (match Encoding.isap e with
     | Some isap => settings_number_predicate self isap
     | None => mret tt
     end ;; mret seen') w'
    = inr (seen', upd_isas (alter (update_isa_preds []
                              (option_list (Encoding.isap e))) self) w'))
    as Hsecond.
  { intros seen' w' Hok'. rewrite bind_run.
    by rewrite (register_isap_run self (Encoding.isap e) w' Hok'). }
  rewrite bind_run. unfold preds_numbered. rewrite Hisaps. simpl omap.
  destruct (Encoding.instp e) as [p|]; [destruct (decide (p ∈ seen))|].
  - unfold mret at 1, M_ret at 1. rewrite Hsecond by done.
    rewrite collect_cons_in by done. simpl.
    do 2 f_equal. set_solver.
  - rewrite !bind_run. unfold set_pred_number, all_instps_append, modify.
    rewrite !bind_run. cbv beta iota. unfold mret at 1, M_ret at 1.
    rewrite Hsecond.
    2:{ apply settings_ok_upd. destruct Hok as [?|(isa & ? & ?)]; [by left|].
        right. by exists isa. }
    rewrite collect_cons_notin by done. simpl.
    do 2 f_equal; [set_solver|]. unfold upd_isas, upd_preds; simpl. f_equal.
    rewrite alter_alter_eq. apply alter_ext. intros i _. simpl.
    rewrite all_instps_append_update. apply update_isa_preds_app.
  - unfold mret at 1, M_ret at 1. rewrite Hsecond by done. simpl.
    do 2 f_equal. set_solver.
Qed.

Lemma preds_inner_run self encs : ∀ (seen : gset ref) w,
  settings_ok self w (omap Encoding.isap encs) →
  foldM (λ (instps : gset ref) enc,
          instps ← match Encoding.instp enc with
                   | Some instp =>
                       if decide (instp ∈ instps) then mret instps
                       else
                         set_pred_number instp (size instps) ;;
                         let instps := instps ∪ {[instp]} in
                         all_instps_append self instp ;;
                         mret instps
                   | None => mret instps
                   end;
          match Encoding.isap enc with
          | Some isap => settings_number_predicate self isap
          | None => mret tt
          end ;;
          mret instps) seen encs w
  = inr (seen ∪ list_to_set (collect seen (omap Encoding.instp encs)),
         preds_numbered self seen encs w).
Proof.
  induction encs as [|e encs IH]; intros seen w Hok.
  - rewrite preds_numbered_nil. simpl. munfold. do 2 f_equal. set_solver.
  - change (e :: encs) with ((e :: nil) ++ encs) in Hok |- *.
    rewrite omap_app in Hok.
    rewrite <-preds_numbered_app, omap_app, collect_app.
    change (foldM ?b seen ((e :: nil) ++ encs) w)
      with (match b seen e w with
            | inl e => inl e
            | inr (b', w') => foldM b b' encs w'
            end).
    cbv beta. rewrite preds_body_run by by eapply settings_ok_app_l.
    etrans; [apply IH; by eapply settings_ok_app_r|].
    do 2 f_equal. set_solver.
Qed.

Lemma preds_outer_run self cpumodes : ∀ (seen : gset ref) w,
  Forall (λ m, is_Some (modes w !! m)) cpumodes →
  settings_ok self w (omap Encoding.isap (encodings_of w cpumodes)) →
  foldM (λ (instps : gset ref) cpumode,
        encodings ← getattr modes CPUMode.encodings "encodings" cpumode;
        foldM (λ (instps : gset ref) enc,
          instps ← match Encoding.instp enc with
                   | Some instp =>
                       if decide (instp ∈ instps) then mret instps
                       else
                         set_pred_number instp (size instps) ;;
                         let instps := instps ∪ {[instp]} in
                         all_instps_append self instp ;;
                         mret instps
                   | None => mret instps
                   end;
          match Encoding.isap enc with
          | Some isap => settings_number_predicate self isap
          | None => mret tt
          end ;;
          mret instps) instps encodings) seen cpumodes w
  = inr (seen ∪ list_to_set
                  (collect seen (omap Encoding.instp (encodings_of w cpumodes))),
         preds_numbered self seen (encodings_of w cpumodes) w).
Proof.
  induction cpumodes as [|m cpumodes IH]; intros seen w Hm Hok.
  - rewrite preds_numbered_nil. simpl. munfold. do 2 f_equal. set_solver.
  - apply Forall_cons in Hm as [[cm Hcm] Hm].
    rewrite encodings_of_cons, Hcm in Hok |- *. simpl default in Hok |- *.
    rewrite omap_app in Hok.
    rewrite foldM_cons, bind_run.
    rewrite (getattr_run _ _ _ _ _ _ Hcm).
    rewrite preds_inner_run by by eapply settings_ok_app_l.
    rewrite IH.
    + rewrite (encodings_of_modes w) by done.
      rewrite preds_numbered_app, omap_app, collect_app.
      do 2 f_equal. set_solver.
    + done.
    + rewrite (encodings_of_modes w) by done. by eapply settings_ok_app_r.
Qed.

Lemma collect_predicates_run self w isa :
  isas w !! self = Some isa →
  Forall (λ m, is_Some (modes w !! m)) (TargetISA.cpumodes isa) →
  is_Some (TargetISA.settings isa)
  ∨ omap Encoding.isap (encodings_of w (TargetISA.cpumodes isa)) = [] →
  _collect_predicates self w
  = inr (tt,
         mkWorld
           (<[self := TargetISA.mk (TargetISA.name isa)
                (register_all
                   (omap Encoding.isap (encodings_of w (TargetISA.cpumodes isa)))
                 <$> TargetISA.settings isa)
                (TargetISA.instruction_groups isa) (TargetISA.cpumodes isa)
                (TargetISA.regbanks isa) (TargetISA.all_recipes isa)
                (Some (collect ∅ (omap Encoding.instp
                         (encodings_of w (TargetISA.cpumodes isa)))))]>
              (isas w))
           (modes w) (recipes w)
           (number_from PredNode.set_number 0
              (collect ∅ (omap Encoding.instp
                            (encodings_of w (TargetISA.cpumodes isa))))
              (preds w))
           (banks w) (regclasses w)).
Proof.
  intros Hisa Hm Hs. unfold _collect_predicates. cbv zeta.
  rewrite bind_run. unfold modify at 1. rewrite bind_run.
  erewrite getattr_run
    by (unfold upd_isas; simpl; rewrite lookup_alter_eq, Hisa; reflexivity).
  rewrite bind_run, preds_outer_run.
  - rewrite (encodings_of_modes w) by done.
    unfold preds_numbered, upd_isas. rewrite size_empty.
    cbn [isas modes recipes preds banks regclasses]. unfold mret, M_ret.
    do 3 f_equal.
    rewrite alter_alter_eq. apply map_eq. intros r.
    destruct (decide (r = self)) as [->|Hne].
    + rewrite lookup_alter_eq, lookup_insert_eq, Hisa. done.
    + by rewrite lookup_alter_ne, lookup_insert_ne.
  - done.
  - rewrite (encodings_of_modes w) by done.
    destruct Hs as [Hs|Hs]; [right|by left].
    unfold upd_isas; simpl. rewrite lookup_alter_eq, Hisa. by eexists.
Qed.

Lemma regclasses_inner_run first_index classes : ∀ idx w,
  foldM (λ idx rc,
        set_regclass_index rc (idx + first_index) ;;
        mret (S idx)) idx classes w
  = inr ((idx + length classes)%nat,
         upd_regclasses
           (number_from RegClass.set_index (idx + first_index) classes) w).
Proof.
  induction classes as [|rc classes IH]; intros idx w.
  - simpl. munfold. rewrite Nat.add_0_r. by destruct w.
  - rewrite foldM_cons, bind_run. unfold set_regclass_index, modify.
    unfold mret at 1, M_ret at 1. rewrite IH. simpl.
    by rewrite Nat.add_succ_r.
Qed.

Lemma finish_regclasses_run bank first_index w b :
  banks w !! bank = Some b →
  finish_regclasses bank first_index w
  = inr (tt, upd_regclasses
               (number_from RegClass.set_index first_index (RegBank.classes b)) w).
Proof.
  intros Hb. unfold finish_regclasses.
  rewrite bind_run, (getattr_run _ _ _ _ _ _ Hb).
  by rewrite bind_run, regclasses_inner_run.
Qed.

Lemma classes_of_cons w b l :
  classes_of w (b :: l)
  = default [] (RegBank.classes <$> banks w !! b) ++ classes_of w l.
Proof. done. Qed.

Lemma classes_of_banks w w' l :
  banks w' = banks w → classes_of w' l = classes_of w l.
Proof. unfold classes_of. by intros ->. Qed.

Lemma regclasses_outer_run regbanks : ∀ rc_index w,
  Forall (λ b, is_Some (banks w !! b)) regbanks →
  foldM (λ rc_index bank,
        finish_regclasses bank rc_index ;;
        classes ← getattr banks RegBank.classes "classes" bank;
        mret (rc_index + length classes)%nat) rc_index regbanks w
  = inr ((rc_index + length (classes_of w regbanks))%nat,
         upd_regclasses
           (number_from RegClass.set_index rc_index (classes_of w regbanks)) w).
Proof.
  induction regbanks as [|bank regbanks IH]; intros rc_index w Hb.
  - simpl. munfold. rewrite Nat.add_0_r. by destruct w.
  - apply Forall_cons in Hb as [[b Hbank] Hb].
    rewrite foldM_cons, bind_run, (finish_regclasses_run _ _ _ _ Hbank).
    rewrite bind_run. erewrite getattr_run by exact Hbank.
    unfold mret at 1, M_ret at 1. rewrite IH by done.
    rewrite (classes_of_banks w) by done.
    rewrite classes_of_cons, Hbank. simpl default.
    unfold upd_regclasses; simpl.
    rewrite length_app, number_from_app, Nat.add_assoc. done.
Qed.

Lemma collect_regclasses_run self w isa :
  isas w !! self = Some isa →
  Forall (λ b, is_Some (banks w !! b)) (TargetISA.regbanks isa) →
  _collect_regclasses self w
  = inr (tt, upd_regclasses
               (number_from RegClass.set_index 0
                  (classes_of w (TargetISA.regbanks isa))) w).
Proof.
  intros Hisa Hb. unfold _collect_regclasses. cbv zeta.
  rewrite bind_run, (getattr_run _ _ _ _ _ _ Hisa).
  by rewrite bind_run, regclasses_outer_run.
Qed.

Lemma ready_inv self w :
  ready self w →
  ∃ isa, isas w !! self = Some isa
    ∧ Forall (λ m, is_Some (modes w !! m)) (TargetISA.cpumodes isa)
    ∧ Forall (λ b, is_Some (banks w !! b)) (TargetISA.regbanks isa)
    ∧ Forall (λ e, is_Some (recipes w !! Encoding.recipe e))
             (encodings_of w (TargetISA.cpumodes isa))
    ∧ Forall (λ p, is_Some (preds w !! p))
             (omap Encoding.instp (encodings_of w (TargetISA.cpumodes isa)))
    ∧ (is_Some (TargetISA.settings isa)
       ∨ omap Encoding.isap (encodings_of w (TargetISA.cpumodes isa)) = []).
Proof.
  unfold ready, all_encodings. destruct (isas w !! self) as [isa|]; [|done].
  intros H. exists isa. split; [done|]. exact H.
Qed.

(** [finish] succeeds on an ISA that is ready, returns [self], and leaves the
    store as [finished] describes. *)
Lemma finish_run self w isa :
  ready self w → isas w !! self = Some isa →
  finish self w = inr (self, finished self isa w).
Proof.
  intros Hr Hisa. apply ready_inv in Hr as (isa' & Hisa' & Hm & Hb & _ & _ & Hs).
  assert (isa' = isa) as -> by congruence.
  unfold finish.
  rewrite bind_run, (collect_encoding_recipes_run _ _ _ Hisa Hm).
  rewrite bind_run.
  erewrite collect_predicates_run;
    [|simpl; apply lookup_insert_eq|done|done].
  rewrite bind_run.
  erewrite collect_regclasses_run;
    [|simpl; rewrite lookup_insert_eq; reflexivity|done].
  unfold mret, M_ret, finished, upd_regclasses. simpl.
  do 3 f_equal. by rewrite insert_insert_eq.
Qed.

(** Without a settings group, [finish] stops at the first encoding that
    carries an ISA predicate. *)
Example finish_without_settings :
  finish 0%nat (upd_isas (alter (TargetISA.set_settings None) 0%nat) demo_world)
  = inl (AttributeError "number_predicate").
Proof. vm_compute. reflexivity. Qed.

(** * Recipe, predicate and register class numbering *)

Lemma all_encodings_eq self w isa :
  isas w !! self = Some isa →
  all_encodings self w = encodings_of w (TargetISA.cpumodes isa).
Proof. unfold all_encodings. by intros ->. Qed.

Lemma finished_all_recipes self isa w :
  isa_all_recipes (finished self isa w) self
  = Some (first_occurrences
            (Encoding.recipe <$> encodings_of w (TargetISA.cpumodes isa))).
Proof.
  unfold isa_all_recipes, finished; simpl.
  by rewrite lookup_insert_eq, collect_empty.
Qed.

Lemma finished_all_instps self isa w :
  isa_all_instps (finished self isa w) self
  = Some (first_occurrences
            (omap Encoding.instp (encodings_of w (TargetISA.cpumodes isa)))).
Proof.
  unfold isa_all_instps, finished; simpl.
  by rewrite lookup_insert_eq, !collect_empty.
Qed.

Lemma elem_of_lookup_first_occurrences l i r :
  first_occurrences l !! i = Some r → r ∈ l.
Proof.
  intros H. apply elem_of_first_occurrences. by eapply list_elem_of_lookup_2.
Qed.

(** C1.  After [finish()], [all_recipes] holds every recipe that some
    encoding refers to exactly once, in the order of first occurrence in the
    scan of the CPU modes and their encodings; the i-th recipe of the list
    has number i, so the numbers are 0..k-1; a recipe that no encoding refers
    to is not in the list and keeps the number it had. *)
Theorem finish_numbers_recipes self w :
  ready self w →
  ∃ w' out,
    finish self w = inr (self, w')
    ∧ isa_all_recipes w' self = Some out
    ∧ out = first_occurrences (scanned_recipes self w)
    ∧ NoDup out
    ∧ (∀ r, r ∈ out ↔ ∃ e, e ∈ all_encodings self w ∧ Encoding.recipe e = r)
    ∧ (∀ l1 r l2, scanned_recipes self w = l1 ++ r :: l2 → r ∉ l1 →
         out !! length (first_occurrences l1) = Some r)
    ∧ (∀ i r, out !! i = Some r → recipe_number w' r = Some i)
    ∧ (∀ i, (i < length out)%nat →
         ∃ r, r ∈ scanned_recipes self w ∧ recipe_number w' r = Some i)
    ∧ (∀ r, r ∉ scanned_recipes self w →
         r ∉ out ∧ recipes w' !! r = recipes w !! r).
Proof.
  intros Hr. pose proof Hr as (isa & Hisa & _ & _ & Hrcp & _)%ready_inv.
  exists (finished self isa w), (first_occurrences (scanned_recipes self w)).
  unfold scanned_recipes. rewrite (all_encodings_eq _ _ _ Hisa).
  set (rs := Encoding.recipe <$> encodings_of w (TargetISA.cpumodes isa)).
  assert (∀ i r, first_occurrences rs !! i = Some r →
            recipe_number (finished self isa w) r = Some i) as Hnum.
  { intros i r Hi. unfold recipe_number, finished; simpl.
    fold rs. rewrite collect_empty.
    rewrite (number_from_lookup _ _ _ _ i) by (done || apply NoDup_first_occurrences).
    apply elem_of_lookup_first_occurrences in Hi.
    apply list_elem_of_fmap in Hi as (e & -> & He).
    rewrite Forall_forall in Hrcp. by destruct (Hrcp e He) as [rcp ->]. }
  split_and!.
  - by apply finish_run.
  - apply finished_all_recipes.
  - done.
  - apply NoDup_first_occurrences.
  - intros r. rewrite elem_of_first_occurrences. unfold rs.
    rewrite list_elem_of_fmap. naive_solver.
  - intros l1 r l2 -> Hr1. by apply first_occurrences_split.
  - done.
  - intros i Hi. destruct (lookup_lt_is_Some_2 _ _ Hi) as [r Hir].
    exists r. split; [by eapply elem_of_lookup_first_occurrences|by apply Hnum].
  - intros r Hr1. split; [by rewrite elem_of_first_occurrences|].
    unfold finished; simpl. apply number_from_lookup_notin.
    fold rs. by rewrite collect_empty, elem_of_first_occurrences.
Qed.

Lemma finish_numbers_recipes_witness :
  ∃ w', finish 0%nat demo_world = inr (0%nat, w')
    ∧ isa_all_recipes w' 0%nat = Some [1%nat; 0%nat]
    ∧ recipe_number w' 1%nat = Some 0%nat
    ∧ recipe_number w' 0%nat = Some 1%nat
    ∧ recipe_number w' 2%nat = None.
Proof.
  destruct (finish_numbers_recipes 0%nat demo_world)
    as (w' & out & Hfin & Hall & -> & _ & _ & _ & Hnum & _ & Hunused).
  { vm_compute. repeat constructor; eauto. }
  exists w'. split_and!; [done|done|by apply Hnum|by apply Hnum|].
  unfold recipe_number. destruct (Hunused 2%nat) as [_ ->]; [|done].
  compute_done.
Defined.

(** C2.  After [finish()], [all_instps] holds every instruction predicate
    attached to some encoding exactly once, in the order of first use in the
    scan of the CPU modes and their encodings; the i-th predicate of the list
    has number i (a count of its own, starting at 0 whatever the recipes
    are); encodings without an instruction predicate contribute nothing. *)
Theorem finish_numbers_instps self w :
  ready self w →
  ∃ w' out,
    finish self w = inr (self, w')
    ∧ isa_all_instps w' self = Some out
    ∧ out = first_occurrences (scanned_instps self w)
    ∧ NoDup out
    ∧ (∀ p, p ∈ out ↔
         ∃ e, e ∈ all_encodings self w ∧ Encoding.instp e = Some p)
    ∧ (∀ l1 p l2, scanned_instps self w = l1 ++ p :: l2 → p ∉ l1 →
         out !! length (first_occurrences l1) = Some p)
    ∧ (∀ i p, out !! i = Some p → pred_number w' p = Some i)
    ∧ (∀ i, (i < length out)%nat →
         ∃ p, p ∈ scanned_instps self w ∧ pred_number w' p = Some i)
    ∧ (∀ p, p ∉ scanned_instps self w →
         p ∉ out ∧ preds w' !! p = preds w !! p).
Proof.
  intros Hr. pose proof Hr as (isa & Hisa & _ & _ & _ & Hprd & _)%ready_inv.
  exists (finished self isa w), (first_occurrences (scanned_instps self w)).
  unfold scanned_instps. rewrite (all_encodings_eq _ _ _ Hisa).
  set (ps := omap Encoding.instp (encodings_of w (TargetISA.cpumodes isa))).
  assert (∀ i p, first_occurrences ps !! i = Some p →
            pred_number (finished self isa w) p = Some i) as Hnum.
  { intros i p Hi. unfold pred_number, finished; simpl.
    fold ps. rewrite collect_empty.
    rewrite (number_from_lookup _ _ _ _ i) by (done || apply NoDup_first_occurrences).
    apply elem_of_lookup_first_occurrences in Hi.
    rewrite Forall_forall in Hprd. by destruct (Hprd p Hi) as [prd ->]. }
  split_and!.
  - by apply finish_run.
  - apply finished_all_instps.
  - done.
  - apply NoDup_first_occurrences.
  - intros p. rewrite elem_of_first_occurrences. unfold ps.
    rewrite list_elem_of_omap. naive_solver.
  - intros l1 p l2 -> Hp1. by apply first_occurrences_split.
  - done.
  - intros i Hi. destruct (lookup_lt_is_Some_2 _ _ Hi) as [p Hip].
    exists p. split; [by eapply elem_of_lookup_first_occurrences|by apply Hnum].
  - intros p Hp1. split; [by rewrite elem_of_first_occurrences|].
    unfold finished; simpl. apply number_from_lookup_notin.
    fold ps. by rewrite collect_empty, elem_of_first_occurrences.
Qed.

Lemma finish_numbers_instps_witness :
  ∃ w', finish 0%nat demo_world = inr (0%nat, w')
    ∧ isa_all_instps w' 0%nat = Some [0%nat; 2%nat]
    ∧ pred_number w' 0%nat = Some 0%nat
    ∧ pred_number w' 2%nat = Some 1%nat
    ∧ pred_number w' 3%nat = None.
Proof.
  destruct (finish_numbers_instps 0%nat demo_world)
    as (w' & out & Hfin & Hall & -> & _ & _ & _ & Hnum & _ & Hunused).
  { vm_compute. repeat constructor; eauto. }
  exists w'. split_and!; [done|done|by apply Hnum|by apply Hnum|].
  unfold pred_number. destruct (Hunused 3%nat) as [_ ->]; [|done].
  compute_done.
Defined.

Lemma classes_of_app w l1 l2 :
  classes_of w (l1 ++ l2) = classes_of w l1 ++ classes_of w l2.
Proof. unfold classes_of. apply bind_app. Qed.

Lemma classes_of_split w bs1 b bs2 bank :
  banks w !! b = Some bank →
  classes_of w (bs1 ++ b :: bs2)
  = classes_of w bs1 ++ RegBank.classes bank ++ classes_of w bs2.
Proof. intros Hb. by rewrite classes_of_app, classes_of_cons, Hb. Qed.

(** C3.  [finish()] gives the classes of each register bank the contiguous
    block of indices that starts at the number of classes of the banks added
    before it; so the indices of all classes are 0, 1, 2, ... in bank order,
    no two classes share an index, and every class of an earlier bank has a
    lower index than every class of a later bank. *)
Theorem finish_numbers_regclasses self w isa :
  ready self w →
  isas w !! self = Some isa →
  NoDup (classes_of w (TargetISA.regbanks isa)) →
  Forall (λ c, is_Some (regclasses w !! c))
         (classes_of w (TargetISA.regbanks isa)) →
  ∃ w',
    finish self w = inr (self, w')
    ∧ banks w' = banks w
    ∧ (∀ bs1 b bs2 bank j c,
         TargetISA.regbanks isa = bs1 ++ b :: bs2 →
         banks w !! b = Some bank →
         RegBank.classes bank !! j = Some c →
         regclass_index w' c = Some (length (classes_of w bs1) + j)%nat)
    ∧ (∀ k c, classes_of w (TargetISA.regbanks isa) !! k = Some c →
         regclass_index w' c = Some k)
    ∧ (∀ k, (k < length (classes_of w (TargetISA.regbanks isa)))%nat →
         ∃ c, c ∈ classes_of w (TargetISA.regbanks isa)
              ∧ regclass_index w' c = Some k)
    ∧ (∀ c1 c2 k,
         c1 ∈ classes_of w (TargetISA.regbanks isa) →
         c2 ∈ classes_of w (TargetISA.regbanks isa) →
         regclass_index w' c1 = Some k → regclass_index w' c2 = Some k →
         c1 = c2)
    ∧ (∀ bs1 b1 bs2 b2 bs3 bank1 bank2 c1 c2 k1 k2,
         TargetISA.regbanks isa = bs1 ++ b1 :: bs2 ++ b2 :: bs3 →
         banks w !! b1 = Some bank1 → banks w !! b2 = Some bank2 →
         c1 ∈ RegBank.classes bank1 → c2 ∈ RegBank.classes bank2 →
         regclass_index w' c1 = Some k1 → regclass_index w' c2 = Some k2 →
         (k1 < k2)%nat).
Proof.
  intros Hr Hisa Hnd Hcls. exists (finished self isa w).
  set (cs := classes_of w (TargetISA.regbanks isa)) in *.
  assert (∀ k c, cs !! k = Some c →
            regclass_index (finished self isa w) c = Some k) as Hnum.
  { intros k c Hk. unfold regclass_index, finished; simpl. fold cs.
    rewrite (number_from_lookup _ _ _ _ k) by done.
    rewrite Forall_forall in Hcls.
    destruct (Hcls c) as [rc ->]; [by eapply list_elem_of_lookup_2|done]. }
  assert (∀ bs1 b bs2 bank j c,
            TargetISA.regbanks isa = bs1 ++ b :: bs2 →
            banks w !! b = Some bank →
            RegBank.classes bank !! j = Some c →
            cs !! (length (classes_of w bs1) + j)%nat = Some c) as Hblock.
  { intros bs1 b bs2 bank j c Hbs Hb Hj. unfold cs.
    rewrite Hbs, (classes_of_split _ _ _ _ _ Hb).
    rewrite lookup_app_r by lia.
    replace (length (classes_of w bs1) + j - length (classes_of w bs1))%nat
      with j by lia.
    by apply lookup_app_l_Some. }
  split_and!.
  - by apply finish_run.
  - done.
  - intros bs1 b bs2 bank j c Hbs Hb Hj. apply Hnum. by eapply Hblock.
  - done.
  - intros k Hk. destruct (lookup_lt_is_Some_2 _ _ Hk) as [c Hc].
    exists c. split; [by eapply list_elem_of_lookup_2|by apply Hnum].
  - intros c1 c2 k [k1 H1]%list_elem_of_lookup [k2 H2]%list_elem_of_lookup.
    rewrite (Hnum _ _ H1), (Hnum _ _ H2). intros [= ->] [= ->]. congruence.
  - intros bs1 b1 bs2 b2 bs3 bank1 bank2 c1 c2 k1 k2 Hbs Hb1 Hb2.
    intros [j1 Hj1]%list_elem_of_lookup [j2 Hj2]%list_elem_of_lookup.
    rewrite (Hnum _ _ (Hblock _ _ _ _ _ _ Hbs Hb1 Hj1)).
    assert (TargetISA.regbanks isa = (bs1 ++ b1 :: bs2) ++ b2 :: bs3) as Hbs'
      by (by rewrite Hbs, <-app_assoc).
    rewrite (Hnum _ _ (Hblock _ _ _ _ _ _ Hbs' Hb2 Hj2)).
    intros [= <-] [= <-].
    rewrite (classes_of_split _ _ _ _ _ Hb1), !length_app.
    apply lookup_lt_Some in Hj1. lia.
Qed.

Lemma finish_numbers_regclasses_witness :
  ∃ w', finish 0%nat demo_world = inr (0%nat, w')
    ∧ regclass_index w' 0%nat = Some 0%nat
    ∧ regclass_index w' 1%nat = Some 1%nat
    ∧ regclass_index w' 2%nat = Some 2%nat.
Proof.
  destruct (finish_numbers_regclasses 0%nat demo_world
              (TargetISA.mk "riscv" (Some (SettingGroup.mk "riscv" []))
                 ["base"%string] [0%nat; 1%nat] [0%nat; 1%nat] None None))
    as (w' & Hfin & _ & _ & Hnum & _).
  - vm_compute. repeat constructor; eauto.
  - reflexivity.
  - compute_done.
  - vm_compute. repeat constructor; eauto.
  - exists w'. split_and!; [done|by apply Hnum..].
Defined.

(** * Running [finish] again *)

Lemma number_predicate_registered p s :
  p ∈ (SettingGroup.predicate_number s).*1 → number_predicate p s = s.
Proof. intros Hp. unfold number_predicate. by rewrite decide_True. Qed.

Lemma number_predicate_keys p q s :
  q ∈ (SettingGroup.predicate_number (number_predicate p s)).*1
  ↔ q = p ∨ q ∈ (SettingGroup.predicate_number s).*1.
Proof.
  unfold number_predicate.
  destruct (decide (p ∈ (SettingGroup.predicate_number s).*1)); simpl.
  - naive_solver.
  - rewrite fmap_app, elem_of_app. simpl. rewrite list_elem_of_singleton.
    naive_solver.
Qed.

Lemma register_all_keys isaps q s :
  q ∈ (SettingGroup.predicate_number (register_all isaps s)).*1
  ↔ q ∈ isaps ∨ q ∈ (SettingGroup.predicate_number s).*1.
Proof.
  revert s. induction isaps as [|p isaps IH]; intros s; simpl.
  - rewrite elem_of_nil. naive_solver.
  - unfold register_all in *. simpl. rewrite IH, number_predicate_keys, elem_of_cons.
    naive_solver.
Qed.

Lemma register_all_registered isaps s :
  (∀ p, p ∈ isaps → p ∈ (SettingGroup.predicate_number s).*1) →
  register_all isaps s = s.
Proof.
  induction isaps as [|p isaps IH]; intros Hreg; [done|].
  unfold register_all in *. simpl.
  rewrite number_predicate_registered by (apply Hreg; left).
  apply IH. intros q Hq. apply Hreg. by right.
Qed.

(** Registration is idempotent. *)
Lemma register_all_idemp isaps s :
  register_all isaps (register_all isaps s) = register_all isaps s.
Proof.
  apply register_all_registered. intros p Hp.
  apply register_all_keys. by left.
Qed.

Lemma finished_isa self isa w :
  isas (finished self isa w) !! self
  = Some (TargetISA.mk (TargetISA.name isa)
            (register_all
               (omap Encoding.isap (encodings_of w (TargetISA.cpumodes isa)))
             <$> TargetISA.settings isa)
            (TargetISA.instruction_groups isa) (TargetISA.cpumodes isa)
            (TargetISA.regbanks isa)
            (Some (collect ∅ (Encoding.recipe
                     <$> encodings_of w (TargetISA.cpumodes isa))))
            (Some (collect ∅ (omap Encoding.instp
                     (encodings_of w (TargetISA.cpumodes isa)))))).
Proof. unfold finished; simpl. apply lookup_insert_eq. Qed.

Lemma is_Some_number_from {V} (set : nat → V → V) k l (m : gmap ref V) r :
  is_Some (number_from set k l m !! r) ↔ is_Some (m !! r).
Proof. by rewrite <-!elem_of_dom, number_from_dom. Qed.

Lemma ready_finished self isa w :
  ready self w → isas w !! self = Some isa → ready self (finished self isa w).
Proof.
  intros (isa' & Hisa' & Hm & Hb & Hrcp & Hprd & Hs)%ready_inv Hisa.
  assert (isa' = isa) as -> by congruence.
  unfold ready. rewrite finished_isa.
  erewrite all_encodings_eq by apply finished_isa. simpl.
  rewrite (encodings_of_modes w (finished self isa w)) by done.
  split_and!; try done.
  - eapply Forall_impl; [exact Hrcp|]. intros e He. simpl.
    by apply is_Some_number_from.
  - eapply Forall_impl; [exact Hprd|]. intros p Hp. simpl.
    by apply is_Some_number_from.
  - destruct Hs as [Hs|Hs]; [left|by right]. by apply fmap_is_Some.
Qed.

Lemma finished_idemp self isa isa' w :
  isas (finished self isa w) !! self = Some isa' →
  finished self isa' (finished self isa w) = finished self isa w.
Proof.
  rewrite finished_isa. intros [= <-]. unfold finished at 1. simpl.
  rewrite (encodings_of_modes w (finished self isa w)) by done.
  rewrite (classes_of_banks w (finished self isa w)) by done.
  unfold finished. simpl. f_equal.
  - rewrite insert_insert_eq. do 2 f_equal.
    destruct (TargetISA.settings isa); simpl; [|done].
    by rewrite register_all_idemp.
  - apply number_from_idemp, EncRecipe_set_set.
  - apply number_from_idemp, PredNode_set_set.
  - apply number_from_idemp, RegClass_set_set.
Qed.

Lemma collect_encoding_recipes_again self isa w :
  ready self w → isas w !! self = Some isa →
  _collect_encoding_recipes self (finished self isa w)
  = inr (tt, finished self isa w).
Proof.
  intros Hr Hisa.
  pose proof (ready_finished _ _ _ Hr Hisa) as (isa1 & Hisa1 & Hm & _)%ready_inv.
  rewrite (collect_encoding_recipes_run _ _ _ Hisa1 Hm).
  rewrite finished_isa in Hisa1. injection Hisa1 as <-. cbn [TargetISA.cpumodes].
  rewrite (encodings_of_modes w (finished self isa w)) by done.
  do 2 f_equal. unfold finished; simpl. f_equal.
  - by rewrite insert_insert_eq.
  - apply number_from_idemp, EncRecipe_set_set.
Qed.

Lemma collect_predicates_again self isa w :
  ready self w → isas w !! self = Some isa →
  _collect_predicates self (finished self isa w)
  = inr (tt, finished self isa w).
Proof.
  intros Hr Hisa.
  pose proof (ready_finished _ _ _ Hr Hisa)
    as (isa1 & Hisa1 & Hm & _ & _ & _ & Hs)%ready_inv.
  rewrite (collect_predicates_run _ _ _ Hisa1 Hm Hs).
  rewrite finished_isa in Hisa1. injection Hisa1 as <-.
  cbn [TargetISA.cpumodes TargetISA.settings TargetISA.name
       TargetISA.instruction_groups TargetISA.regbanks TargetISA.all_recipes].
  rewrite (encodings_of_modes w (finished self isa w)) by done.
  do 2 f_equal. unfold finished; simpl. f_equal.
  - rewrite insert_insert_eq. do 2 f_equal.
    destruct (TargetISA.settings isa); simpl; [|done].
    by rewrite register_all_idemp.
  - apply number_from_idemp, PredNode_set_set.
Qed.

(** C4, as the code has it.  Each collection pass of [finish] starts from
    an empty list and an empty seen-set, so the derived collections need not
    be empty beforehand: run on a finished ISA, the recipe pass reproduces
    [all_recipes] and the recipe numbers, and, when no encoding carries an
    ISA predicate, the predicate pass reproduces [all_instps] and the
    predicate numbers.  For a target without register banks whose encodings
    carry no ISA predicate, [finish] calls nothing outside isa.py, and a
    second [finish] succeeds and leaves the store as the first one left it.
    What a second [finish] does to a target with register banks or ISA
    predicates is decided by [RegBank.finish_regclasses] and
    [SettingGroup.number_predicate] and is not stated here. *)
Theorem finish_idempotent self w :
  ready self w →
  ∃ w1,
    finish self w = inr (self, w1)
    ∧ _collect_encoding_recipes self w1 = inr (tt, w1)
    ∧ (scanned_isaps self w = [] →
       _collect_predicates self w1 = inr (tt, w1)
       ∧ ((TargetISA.regbanks <$> isas w !! self) = Some [] →
          finish self w1 = inr (self, w1))).
Proof.
  intros Hr. pose proof Hr as (isa & Hisa & _)%ready_inv.
  exists (finished self isa w). split_and!.
  - by apply finish_run.
  - by apply collect_encoding_recipes_again.
  - intros _. split; [by apply collect_predicates_again|]. intros _.
    rewrite (finish_run _ _ _ (ready_finished _ _ _ Hr Hisa) (finished_isa _ _ _)).
    do 2 f_equal. apply finished_idemp, finished_isa.
Qed.

Lemma finish_idempotent_witness :
  (∃ w1, finish 0%nat demo_world = inr (0%nat, w1)
         ∧ isa_all_recipes w1 0%nat = Some [1%nat; 0%nat]
         ∧ _collect_encoding_recipes 0%nat w1 = inr (tt, w1))
  ∧ finish 0%nat plain_world = inr (0%nat, plain_finished)
  ∧ _collect_predicates 0%nat plain_finished = inr (tt, plain_finished)
  ∧ finish 0%nat plain_finished = inr (0%nat, plain_finished).
Proof.
  split.
  - destruct (finish_idempotent 0%nat demo_world) as (w1 & H1 & H2 & _).
    { compute_done. }
    exists w1. split_and!; [exact H1| |exact H2].
    assert (finish 0%nat demo_world
            = inr (0%nat, finished 0%nat
                            (TargetISA.mk "riscv" (Some (SettingGroup.mk "riscv" []))
                               ["base"%string] [0%nat; 1%nat] [0%nat; 1%nat]
                               None None) demo_world)) as H
      by (apply finish_run; [compute_done|reflexivity]).
    rewrite H in H1. injection H1 as <-. reflexivity.
  - destruct (finish_idempotent 0%nat plain_world) as (w1 & H1 & _ & H2).
    { compute_done. }
    destruct H2 as (H2 & H3); [reflexivity|]. specialize (H3 eq_refl).
    assert (w1 = plain_finished) as ->; [|done].
    assert (finish 0%nat plain_world = inr (0%nat, plain_finished)) as H
      by (vm_compute; reflexivity).
    congruence.
Defined.

(** C4, as the claim states it: were [finish] idempotent only on empty
    derived collections, a second run over non-empty ones could not leave
    them as they are.  On [plain_world] it does. *)
Lemma finish_twice_reproduces :
  finish 0%nat plain_world = inr (0%nat, plain_finished)
  ∧ isa_all_recipes plain_finished 0%nat = Some [1%nat; 0%nat]
  ∧ isa_all_instps plain_finished 0%nat = Some [0%nat]
  ∧ recipe_number plain_finished 1%nat = Some 0%nat
  ∧ recipe_number plain_finished 0%nat = Some 1%nat
  ∧ pred_number plain_finished 0%nat = Some 0%nat
  ∧ finish 0%nat plain_finished = inr (0%nat, plain_finished).
Proof. split_and!; vm_compute; reflexivity. Qed.

(** * What [finish] leaves alone *)

Lemma number_from_frame {V} (set : nat → V → V) (same : V → V → Prop)
    k l (m : gmap ref V) :
  (∀ a b x, set a (set b x) = set a x) →
  (∀ v, same v v) → (∀ n v, same v (set n v)) →
  store_frame same l m (number_from set k l m).
Proof.
  intros Hset Hrefl Hsame r.
  destruct (decide (r ∈ l)) as [Hr|Hr].
  - destruct (number_from_lookup_cases set Hset k l m r) as [->|[j ->]];
      destruct (m !! r) as [v|]; simpl; eauto.
    exists (set j v). split_and!; [done|apply Hsame|done].
  - rewrite number_from_lookup_notin by done.
    destruct (m !! r) as [v|]; eauto.
Qed.

Lemma store_frame_touched {V} (same : V → V → Prop) l l' (m m' : gmap ref V) :
  (∀ r, r ∈ l → r ∈ l') → store_frame same l m m' → store_frame same l' m m'.
Proof.
  intros Hsub Hf r. specialize (Hf r). destruct (m !! r); [|done].
  destruct Hf as (v' & ? & ? & ?). exists v'. naive_solver.
Qed.

Lemma collect_frame {V} (set : nat → V → V) (same : V → V → Prop)
    l (m : gmap ref V) :
  (∀ a b x, set a (set b x) = set a x) →
  (∀ v, same v v) → (∀ n v, same v (set n v)) →
  store_frame same l m (number_from set 0 (collect ∅ l) m).
Proof.
  intros. eapply store_frame_touched; [|by apply number_from_frame].
  intros r. rewrite elem_of_collect. tauto.
Qed.

(** C10.  [finish()] returns [self].  It leaves the CPU modes, with their
    encodings and all fields of these, and the register banks as they are;
    in the [TargetISA] object it changes [all_recipes], [all_instps] and the
    registrations in [settings] only; a recipe or predicate changes in its
    [number] at most, and only if an encoding refers to it; a register class
    changes in its [index] at most, and only if it belongs to a bank of this
    ISA; no other [TargetISA] changes. *)
Theorem finish_frame self w :
  ready self w →
  ∃ w',
    finish self w = inr (self, w')
    ∧ modes w' = modes w
    ∧ all_encodings self w' = all_encodings self w
    ∧ banks w' = banks w
    ∧ (∀ i, i ≠ self → isas w' !! i = isas w !! i)
    ∧ (∃ isa isa',
         isas w !! self = Some isa ∧ isas w' !! self = Some isa'
         ∧ same_isa_definition isa isa'
         ∧ TargetISA.settings isa'
           = register_all (scanned_isaps self w) <$> TargetISA.settings isa)
    ∧ store_frame same_recipe (scanned_recipes self w) (recipes w) (recipes w')
    ∧ store_frame same_pred (scanned_instps self w) (preds w) (preds w')
    ∧ store_frame (λ c c', RegClass.name c' = RegClass.name c)
        (isa_classes self w) (regclasses w) (regclasses w').
Proof.
  intros Hr. pose proof Hr as (isa & Hisa & _)%ready_inv.
  exists (finished self isa w).
  assert (all_encodings self (finished self isa w) = all_encodings self w) as Henc.
  { erewrite !all_encodings_eq by (done || apply finished_isa). simpl.
    by apply encodings_of_modes. }
  unfold scanned_isaps, scanned_recipes, scanned_instps, isa_classes.
  rewrite (all_encodings_eq _ _ _ Hisa), Hisa. simpl.
  split_and!.
  - by apply finish_run.
  - done.
  - rewrite Henc. by apply all_encodings_eq.
  - done.
  - intros i Hi. unfold finished; simpl. by rewrite lookup_insert_ne.
  - eexists isa, _. split_and!; [done|apply finished_isa|..]; done.
  - apply (collect_frame _ same_recipe); [done|by intros []|by intros ? []].
  - apply (collect_frame _ same_pred); [done|by intros []|by intros ? []].
  - eapply (number_from_frame _ (λ c c', RegClass.name c' = RegClass.name c));
      [done|done|by intros ? []].
Qed.

Lemma finish_frame_witness :
  ∃ w', finish 0%nat demo_world = inr (0%nat, w')
    ∧ modes w' = modes demo_world
    ∧ banks w' = banks demo_world
    ∧ recipes w' !! 2%nat = Some (demo_recipe "R2").
Proof.
  destruct (finish_frame 0%nat demo_world)
    as (w' & Hfin & Hm & _ & Hb & _ & _ & Hrcp & _).
  { vm_compute. repeat constructor; eauto. }
  exists w'. split_and!; [done..|].
  specialize (Hrcp 2%nat). change (recipes demo_world !! 2%nat)
    with (Some (demo_recipe "R2")) in Hrcp.
  destruct Hrcp as (v' & -> & _ & Hv). f_equal. apply Hv. compute_done.
Defined.

(** * Constructing encodings *)

Lemma assert_inv b a w x :
  assert_ b a w = inr x → b = true ∧ x = (tt, w).
Proof. unfold assert_. destruct b; [|done]. by intros [= <-]. Qed.

Lemma assert_true a w : assert_ true a w = inr (tt, w).
Proof. done. Qed.

Lemma getattr_inv {O A} (store : World → gmap ref O) (proj : O → A) attr r w x :
  getattr store proj attr r w = inr x →
  ∃ o, store w !! r = Some o ∧ x = (proj o, w).
Proof.
  unfold getattr. destruct (store w !! r) as [o|]; [|done].
  intros [= <-]. by exists o.
Qed.

(** Take the first computation of a successful sequence apart. *)
Ltac bind_inv H :=
  rewrite bind_run in H;
  match type of H with
  | match ?m ?w with _ => _ end = _ =>
      let E := fresh "E" in
      destruct (m w) as [?|[? ?]] eqn:E; [discriminate H|]
  end.

Lemma preds_extended_refl w : preds_extended w w.
Proof. by unfold preds_extended. Qed.

Lemma preds_extended_trans w1 w2 w3 :
  preds_extended w1 w2 → preds_extended w2 w3 → preds_extended w1 w3.
Proof.
  unfold preds_extended. intros (?&?&?&?&?&?) (?&?&?&?&?&?).
  split_and!; try congruence. by etrans.
Qed.

Lemma And_combine_absent_l b w : And_combine None b w = inr (b, w).
Proof. by destruct b. Qed.

Lemma And_combine_absent_r a w : And_combine a None w = inr (a, w).
Proof. by destruct a. Qed.

Lemma And_combine_present p q w node :
  preds w !! p = Some node →
  And_combine (Some p) (Some q) w
  = inr (Some (fresh (dom (preds w))),
         upd_preds <[fresh (dom (preds w))
                     := PredNode.mk (PAnd [p; q]) (PredNode.context node) None]> w).
Proof.
  intros Hp. unfold And_combine.
  by rewrite bind_run, (getattr_run _ _ _ _ _ _ Hp).
Qed.

Lemma And_combine_extends a b w c w' :
  And_combine a b w = inr (c, w') → preds_extended w w'.
Proof.
  destruct a as [p|], b as [q|];
    rewrite ?And_combine_absent_l, ?And_combine_absent_r;
    try (intros [= <- <-]; apply preds_extended_refl).
  unfold And_combine. intros H. bind_inv H.
  apply getattr_inv in E as (node & Hp & [= -> ->]).
  injection H as <- <-. unfold preds_extended, upd_preds; simpl.
  split_and!; try done. apply insert_subseteq, not_elem_of_dom, is_fresh.
Qed.

Lemma resolve_inst_extends inst instp w x w' :
  resolve_inst inst instp w = inr (x, w') → preds_extended w w'.
Proof.
  destruct inst as [a|i]; simpl; intros H.
  - bind_inv H. injection H as <- <-. by eapply And_combine_extends.
  - unfold fully_bound in H.
    destruct (MaybeBoundInst.all_typevars_bound i); [|done].
    injection H as <- <-. apply preds_extended_refl.
Qed.

(** [Encoding.__init__], check by check. *)
Lemma Encoding_init_eq cpumode inst recipe encbits instp isap w :
  Encoding_init cpumode inst recipe encbits instp isap w
  = if bool_decide (cpumode ∈ dom (modes w)) then
      match recipes w !! recipe with
      | None => inl (AssertionError NotAnEncRecipe)
      | Some rcp =>
          match resolve_inst inst instp w with
          | inl e => inl e
          | inr ((p, i, tvs), w1) =>
              if bool_decide (Instruction.format i = EncRecipe.format rcp) then
                if Instruction.is_branch i
                   && negb (branch_range_truthy (EncRecipe.branch_range rcp))
                then inl (AssertionError BranchRangeError)
                else combine_predicates cpumode i tvs recipe rcp encbits p isap w1
              else inl (AssertionError FormatMismatchError)
          end
      end
    else inl (AssertionError NotACPUMode).
Proof.
  unfold Encoding_init. rewrite bind_run. unfold get_world.
  rewrite bind_run. destruct (bool_decide (cpumode ∈ dom (modes w))); [|done].
  rewrite assert_true, bind_run.
  destruct (recipes w !! recipe) as [rcp|] eqn:Hrcp.
  2:{ rewrite bool_decide_eq_false_2; [done|]. by apply not_elem_of_dom. }
  rewrite bool_decide_eq_true_2 by (apply elem_of_dom; eauto).
  rewrite assert_true, bind_run.
  destruct (resolve_inst inst instp w) as [e|[[[p i] tvs] w1]] eqn:Hres; [done|].
  apply resolve_inst_extends in Hres as (_ & _ & Hrcps & _).
  assert (recipes w1 !! recipe = Some rcp) as Hrcp1 by by rewrite Hrcps.
  rewrite bind_run, (getattr_run _ _ _ _ _ _ Hrcp1), bind_run.
  destruct (bool_decide (Instruction.format i = EncRecipe.format rcp)); [|done].
  rewrite assert_true, bind_run.
  destruct (Instruction.is_branch i); simpl.
  - rewrite bind_run, (getattr_run _ _ _ _ _ _ Hrcp1).
    destruct (branch_range_truthy (EncRecipe.branch_range rcp)); simpl; [|done].
    rewrite bind_run, (getattr_run _ _ _ _ _ _ Hrcp1).
    unfold combine_predicates. rewrite !bind_run.
    destruct (And_combine _ p w1) as [e|[a w2]] eqn:Hand; [done|].
    apply And_combine_extends in Hand as (_ & _ & Hrcps2 & _).
    assert (recipes w2 !! recipe = Some rcp) as Hrcp2 by by rewrite Hrcps2.
    by rewrite bind_run, (getattr_run _ _ _ _ _ _ Hrcp2).
  - unfold mret at 1, M_ret at 1.
    rewrite bind_run, (getattr_run _ _ _ _ _ _ Hrcp1).
    unfold combine_predicates. rewrite !bind_run.
    destruct (And_combine _ p w1) as [e|[a w2]] eqn:Hand; [done|].
    apply And_combine_extends in Hand as (_ & _ & Hrcps2 & _).
    assert (recipes w2 !! recipe = Some rcp) as Hrcp2 by by rewrite Hrcps2.
    by rewrite bind_run, (getattr_run _ _ _ _ _ _ Hrcp2).
Qed.

(** * Encodings stay as constructed *)

Section preserves.
Context (R : World → World → Prop) `{!PreOrder R}.

Lemma preserves_ret {A} (a : A) : preserves R (mret a).
Proof. intros w a' w' [= <- <-]. reflexivity. Qed.

Lemma preserves_raise {A} e : preserves R (raise (A:=A) e).
Proof. by intros w a w'. Qed.

Lemma preserves_bind {A B} (m : M A) (k : A → M B) :
  preserves R m → (∀ a, preserves R (k a)) → preserves R (m ≫= k).
Proof.
  intros Hm Hk w b w' H. bind_inv H.
  etrans; [by eapply Hm|by eapply Hk].
Qed.

Lemma preserves_foldM {A B} (body : B → A → M B) b l :
  (∀ b x, preserves R (body b x)) → preserves R (foldM body b l).
Proof.
  intros Hbody. revert b. induction l as [|x l IH]; intros b; simpl.
  - apply preserves_ret.
  - apply preserves_bind; [apply Hbody|apply IH].
Qed.

Lemma preserves_getattr {O A} (store : World → gmap ref O) (proj : O → A)
    attr r :
  preserves R (getattr store proj attr r).
Proof.
  intros w a w' (o & _ & [= -> ->])%getattr_inv. reflexivity.
Qed.

Lemma preserves_get_world : preserves R get_world.
Proof. intros w a w' [= <- <-]. reflexivity. Qed.

Lemma preserves_assert b a : preserves R (assert_ b a).
Proof. intros w [] w' [_ [= ->]]%assert_inv. reflexivity. Qed.

Lemma preserves_modify f : (∀ w, R w (f w)) → preserves R (modify f).
Proof. intros Hf w [] w' [= <-]. apply Hf. Qed.

End preserves.

#[global] Instance same_recipe_preorder : PreOrder same_recipe.
Proof.
  split.
  - intros r. by unfold same_recipe.
  - intros r1 r2 r3. unfold same_recipe. intuition congruence.
Qed.

#[global] Instance definitions_kept_preorder : PreOrder definitions_kept.
Proof.
  split.
  - intros w. split; [done|]. intros r. reflexivity.
  - intros w1 w2 w3 [Hm1 Hr1] [Hm2 Hr2]. split; [congruence|].
    intros r. etrans; [apply Hr1|apply Hr2].
Qed.

Lemma definitions_kept_upd_isas f w : definitions_kept w (upd_isas f w).
Proof. split; [done|]. intros r. reflexivity. Qed.

Lemma definitions_kept_upd_preds f w : definitions_kept w (upd_preds f w).
Proof. split; [done|]. intros r. reflexivity. Qed.

Lemma definitions_kept_upd_regclasses f w :
  definitions_kept w (upd_regclasses f w).
Proof. split; [done|]. intros r. reflexivity. Qed.

Lemma definitions_kept_set_number n r w :
  definitions_kept w (upd_recipes (alter (EncRecipe.set_number n) r) w).
Proof.
  split; [done|]. intros r'. unfold upd_recipes; simpl.
  destruct (decide (r = r')) as [->|Hne].
  - rewrite lookup_alter_eq. destruct (recipes w !! r') as [rcp|]; simpl;
      constructor. by destruct rcp.
  - rewrite lookup_alter_ne by done. reflexivity.
Qed.

(** Whenever [finish] returns, the definitions are kept. *)
Lemma finish_keeps_definitions self : preserves definitions_kept (finish self).
Proof.
  unfold finish, _collect_encoding_recipes, _collect_predicates,
    _collect_regclasses, finish_regclasses, settings_number_predicate,
    set_recipe_number, set_pred_number, set_regclass_index,
    all_recipes_append, all_instps_append.
  repeat first
    [ apply preserves_ret | apply preserves_raise
    | apply preserves_getattr | apply preserves_get_world
    | apply preserves_modify;
        first [ apply definitions_kept_upd_isas
              | apply definitions_kept_upd_preds
              | apply definitions_kept_upd_regclasses
              | apply definitions_kept_set_number ]
    | apply preserves_bind; [apply _| |intros ?]
    | apply preserves_foldM; [apply _|intros ? ?]
    | apply _
    | progress cbv zeta
    | match goal with
      | |- preserves _ (match ?x with _ => _ end) => destruct x
      | |- preserves _ (if ?x then _ else _) => destruct x
      end ].
Qed.

(** What a successful [Encoding.__init__] has checked and computed. *)
Lemma Encoding_init_inv cpumode inst recipe encbits instp isap w e w' :
  Encoding_init cpumode inst recipe encbits instp isap w = inr (e, w') →
  ∃ rcp p i tvs w1 w2,
    cpumode ∈ dom (modes w)
    ∧ recipes w !! recipe = Some rcp
    ∧ resolve_inst inst instp w = inr ((p, i, tvs), w1)
    ∧ Instruction.format i = EncRecipe.format rcp
    ∧ (Instruction.is_branch i = true →
       branch_range_truthy (EncRecipe.branch_range rcp) = true)
    ∧ And_combine (EncRecipe.instp rcp) p w1 = inr (Encoding.instp e, w2)
    ∧ And_combine (EncRecipe.isap rcp) isap w2 = inr (Encoding.isap e, w')
    ∧ e = Encoding.mk cpumode i tvs recipe encbits
            (Encoding.instp e) (Encoding.isap e)
    ∧ preds_extended w w'.
Proof.
  rewrite Encoding_init_eq. case_bool_decide as Hmode; [|done].
  destruct (recipes w !! recipe) as [rcp|]; [|done].
  destruct (resolve_inst inst instp w) as [?|[[[p i] tvs] w1]] eqn:Hres; [done|].
  case_bool_decide as Hfmt; [|done].
  destruct (Instruction.is_branch i && _) eqn:Hbr; [done|].
  unfold combine_predicates. intros H. bind_inv H. bind_inv H.
  injection H as <- <-. simpl.
  exists rcp, p, i, tvs, w1, w0. split_and!; try done.
  - intros Hb. rewrite Hb in Hbr. simpl in Hbr. by apply negb_false_iff.
  - eapply preds_extended_trans; [by eapply resolve_inst_extends|].
    eapply preds_extended_trans; by eapply And_combine_extends.
Qed.

Lemma branch_range_truthy_present br :
  branch_range_truthy br = true → is_Some br.
Proof. by destruct br. Qed.

(** Structural steps of a [preserves] proof. *)
Ltac preserves_step :=
  first
    [ apply preserves_ret | apply preserves_raise
    | apply preserves_getattr | apply preserves_get_world
    | apply preserves_assert
    | apply preserves_bind; [apply _| |intros ?]
    | apply preserves_foldM; [apply _|intros ? ?]
    | apply _
    | progress cbv zeta
    | match goal with
      | |- preserves _ (match ?x with _ => _ end) => destruct x
      | |- preserves _ (if ?x then _ else _) => destruct x
      end ].

(** [EncRecipe.__init__] only reads the store. *)
Lemma EncRecipe_init_reads name format size ins outs br instp isap :
  preserves eq (EncRecipe_init name format size ins outs br instp isap).
Proof.
  unfold EncRecipe_init, _verify_constraints, forM_. repeat preserves_step.
Qed.

Lemma TargetISA_new_inv name groups w r w' :
  TargetISA_new name groups w = inr (r, w') →
  r = fresh (dom (isas w))
  ∧ w' = upd_isas <[r := TargetISA.mk name None groups [] [] None None]> w.
Proof.
  cbv [TargetISA_new mbind M_bind mret M_ret get_world modify].
  by intros [= <- <-].
Qed.

Lemma CPUMode_new_inv name isa w r w' :
  CPUMode_new name isa w = inr (r, w') →
  ∃ i, isas w !! isa = Some i
    ∧ r = fresh (dom (modes w))
    ∧ w' = upd_isas (alter (TargetISA.set_cpumodes
                              (TargetISA.cpumodes i ++ [r])) isa)
             (upd_modes <[r := CPUMode.mk name isa []]> w).
Proof.
  cbv [CPUMode_new mbind M_bind mret M_ret get_world modify getattr].
  simpl. destruct (isas w !! isa) as [i|]; [|done].
  intros [= <- <-]. by exists i.
Qed.

Lemma EncRecipe_new_inv name format size ins outs br instp isap w r w' :
  EncRecipe_new name format size ins outs br instp isap w = inr (r, w') →
  ∃ obj, EncRecipe_init name format size ins outs br instp isap w = inr (obj, w)
    ∧ r = fresh (dom (recipes w))
    ∧ w' = upd_recipes <[r := obj]> w.
Proof.
  unfold EncRecipe_new. intros H. bind_inv H.
  pose proof (EncRecipe_init_reads _ _ _ _ _ _ _ _ _ _ _ E) as <-.
  revert H. cbv [mbind M_bind mret M_ret get_world modify].
  intros [= <- <-]. by eexists.
Qed.

Lemma enc_inv self inst recipe encbits instp isap w w' :
  enc self inst recipe encbits instp isap w = inr (tt, w') →
  ∃ e w1,
    Encoding_init self inst recipe encbits instp isap w = inr (e, w1)
    ∧ w' = upd_modes (alter (CPUMode.append_encoding e) self) w1.
Proof.
  unfold enc. intros H. bind_inv H. injection H as <-. by eexists _, _.
Qed.

Section encodings_satisfy.
Context (P : Instruction.t → EncRecipe.t → Prop).
Hypothesis P_same : ∀ i r r', same_recipe r r' → P i r → P i r'.
Hypothesis P_init : ∀ cpumode inst recipe encbits instp isap w e w' rcp,
  Encoding_init cpumode inst recipe encbits instp isap w = inr (e, w') →
  recipes w !! recipe = Some rcp → P (Encoding.inst e) rcp.

Lemma encodings_satisfy_kept w w' :
  definitions_kept w w' → encodings_satisfy P w → encodings_satisfy P w'.
Proof.
  intros [Hm Hr] Hinv m cm e Hcm He. rewrite Hm in Hcm.
  destruct (Hinv m cm e Hcm He) as (rcp & Hrcp & HP).
  specialize (Hr (Encoding.recipe e)). rewrite Hrcp in Hr.
  inversion Hr as [? rcp' Hsame|]; subst.
  exists rcp'. split; [done|by eapply P_same].
Qed.

Lemma encodings_satisfy_step w w' :
  api_step w w' → encodings_satisfy P w → encodings_satisfy P w'.
Proof.
  intros Hstep Hinv. destruct Hstep as
    [name groups w r w' H|isa s w|name isa w r w' H
    |name format size ins outs br instp isap w r w' H
    |self inst recipe encbits instp isap w w' H|self w r w' H].
  - apply TargetISA_new_inv in H as (_ & ->). done.
  - done.
  - apply CPUMode_new_inv in H as (i & _ & -> & ->).
    intros m cm e Hcm He. simpl in *.
    destruct (decide (fresh (dom (modes w)) = m)) as [<-|Hne].
    + rewrite lookup_insert_eq in Hcm. injection Hcm as <-.
      by apply elem_of_nil in He.
    + rewrite lookup_insert_ne in Hcm by done. by eapply Hinv.
  - apply EncRecipe_new_inv in H as (obj & _ & -> & ->).
    intros m cm e Hcm He. simpl in *.
    destruct (Hinv m cm e Hcm He) as (rcp & Hrcp & HP). exists rcp.
    split; [|done]. rewrite lookup_insert_ne; [done|].
    intros Heq. rewrite <-Heq in Hrcp.
    by rewrite (not_elem_of_dom_1 _ _ (is_fresh (dom (recipes w)))) in Hrcp.
  - apply enc_inv in H as (e & w1 & Hinit & ->).
    pose proof Hinit as (rcp & p & i & tvs & w0 & w2 & _ & Hrcp & _ & _
      & _ & _ & _ & He & (_ & Hm & Hr & _))%Encoding_init_inv.
    intros m cm e' Hcm He'. simpl in *. rewrite Hr.
    destruct (decide (self = m)) as [<-|Hne].
    + rewrite lookup_alter_eq, Hm in Hcm.
      destruct (modes w !! self) as [cm0|] eqn:Hcm0; [|done].
      injection Hcm as <-. simpl in He'.
      apply elem_of_app in He' as [He'|He'].
      * by eapply Hinv.
      * apply list_elem_of_singleton in He' as ->. exists rcp. split; [by rewrite He|]. by eapply P_init.
    + rewrite lookup_alter_ne, Hm in Hcm by done. by eapply Hinv.
  - eapply encodings_satisfy_kept; [|done]. by eapply finish_keeps_definitions.
Qed.

Lemma encodings_satisfy_steps w w' :
  rtc api_step w w' → encodings_satisfy P w → encodings_satisfy P w'.
Proof.
  induction 1 as [|w1 w2 w3 Hstep _ IH]; [done|].
  intros. by eapply IH, encodings_satisfy_step.
Qed.

End encodings_satisfy.

Lemma same_recipe_format_matches i r r' :
  same_recipe r r' → format_matches i r → format_matches i r'.
Proof. unfold format_matches. intros (_ & -> & _). done. Qed.

Lemma same_recipe_branch_has_range i r r' :
  same_recipe r r' → branch_has_range i r → branch_has_range i r'.
Proof. unfold branch_has_range. intros (_ & _ & _ & -> & _). done. Qed.

Lemma Encoding_init_format cpumode inst recipe encbits instp isap w e w' rcp :
  Encoding_init cpumode inst recipe encbits instp isap w = inr (e, w') →
  recipes w !! recipe = Some rcp → format_matches (Encoding.inst e) rcp.
Proof.
  intros (rcp' & p & i & tvs & w1 & w2 & _ & Hrcp & _ & Hfmt & _ & _ & _
          & -> & _)%Encoding_init_inv Hrcp'.
  by assert (rcp' = rcp) as -> by congruence.
Qed.

Lemma Encoding_init_branch cpumode inst recipe encbits instp isap w e w' rcp :
  Encoding_init cpumode inst recipe encbits instp isap w = inr (e, w') →
  recipes w !! recipe = Some rcp → branch_has_range (Encoding.inst e) rcp.
Proof.
  intros (rcp' & p & i & tvs & w1 & w2 & _ & Hrcp & _ & _ & Hbr & _ & _
          & -> & _)%Encoding_init_inv Hrcp'.
  assert (rcp' = rcp) as -> by congruence.
  intros Hb. by apply branch_range_truthy_present, Hbr.
Qed.

(** C5.  [Encoding.__init__] fails with the format assertion whenever the
    format of the resolved instruction differs from the format of the recipe;
    every encoding it returns has [inst.format == recipe.format]; and this
    holds of all encodings of all CPU modes in every store reached by the
    operations of the module, [finish] included. *)
Theorem Encoding_format_checked :
  (∀ cpumode inst recipe encbits instp isap w rcp p i tvs w1,
     cpumode ∈ dom (modes w) →
     recipes w !! recipe = Some rcp →
     resolve_inst inst instp w = inr ((p, i, tvs), w1) →
     Instruction.format i ≠ EncRecipe.format rcp →
     Encoding_init cpumode inst recipe encbits instp isap w
     = inl (AssertionError FormatMismatchError))
  ∧ (∀ cpumode inst recipe encbits instp isap w e w',
       Encoding_init cpumode inst recipe encbits instp isap w = inr (e, w') →
       ∃ rcp, recipes w' !! Encoding.recipe e = Some rcp
              ∧ Instruction.format (Encoding.inst e) = EncRecipe.format rcp)
  ∧ (∀ w w', rtc api_step w w' →
       encodings_satisfy format_matches w →
       encodings_satisfy format_matches w').
Proof.
  split_and!.
  - intros cpumode inst recipe encbits instp isap w rcp p i tvs w1
      Hmode Hrcp Hres Hfmt.
    rewrite Encoding_init_eq, bool_decide_eq_true_2, Hrcp, Hres by done.
    by rewrite bool_decide_eq_false_2.
  - intros cpumode inst recipe encbits instp isap w e w' Hinit.
    pose proof Hinit as (rcp & p & i & tvs & w1 & w2 & _ & Hrcp & _ & _ & _
      & _ & _ & He & (_ & _ & Hr & _))%Encoding_init_inv.
    exists rcp. split; [by rewrite He, Hr|].
    by eapply Encoding_init_format.
  - apply encodings_satisfy_steps.
    + apply same_recipe_format_matches.
    + apply Encoding_init_format.
Qed.

Lemma Encoding_format_checked_witness :
  Encoding_init 0%nat (SpecInst (MaybeBoundInst.mk demo_unary [] true))
    0%nat 1 None None demo_world
  = inl (AssertionError FormatMismatchError).
Proof.
  destruct Encoding_format_checked as (Hfail & _ & _).
  eapply (Hfail _ _ _ _ _ _ demo_world (demo_recipe "R0")).
  - compute_done.
  - reflexivity.
  - reflexivity.
  - discriminate.
Defined.

(** C6, as the code has it.  The branch assertion comes after the format
    assertion: when the formats match, [Encoding.__init__] fails with the
    branch-range assertion for a branch instruction and a recipe without
    [branch_range]; every encoding it returns for a branch instruction uses
    a recipe with a [branch_range]; and this holds of all encodings of all
    CPU modes in every store reached by the operations of the module. *)
Theorem Encoding_branch_range_checked :
  (∀ cpumode inst recipe encbits instp isap w rcp p i tvs w1,
     cpumode ∈ dom (modes w) →
     recipes w !! recipe = Some rcp →
     resolve_inst inst instp w = inr ((p, i, tvs), w1) →
     Instruction.format i = EncRecipe.format rcp →
     Instruction.is_branch i = true →
     EncRecipe.branch_range rcp = None →
     Encoding_init cpumode inst recipe encbits instp isap w
     = inl (AssertionError BranchRangeError))
  ∧ (∀ cpumode inst recipe encbits instp isap w e w',
       Encoding_init cpumode inst recipe encbits instp isap w = inr (e, w') →
       Instruction.is_branch (Encoding.inst e) = true →
       ∃ rcp, recipes w' !! Encoding.recipe e = Some rcp
              ∧ is_Some (EncRecipe.branch_range rcp))
  ∧ (∀ w w', rtc api_step w w' →
       encodings_satisfy branch_has_range w →
       encodings_satisfy branch_has_range w').
Proof.
  split_and!.
  - intros cpumode inst recipe encbits instp isap w rcp p i tvs w1
      Hmode Hrcp Hres Hfmt Hbr Hnone.
    rewrite Encoding_init_eq, bool_decide_eq_true_2, Hrcp, Hres by done.
    by rewrite bool_decide_eq_true_2, Hbr, Hnone by done.
  - intros cpumode inst recipe encbits instp isap w e w' Hinit Hbr.
    pose proof Hinit as (rcp & p & i & tvs & w1 & w2 & _ & Hrcp & _ & _ & _
      & _ & _ & He & (_ & _ & Hr & _))%Encoding_init_inv.
    exists rcp. split; [by rewrite He, Hr|].
    by eapply Encoding_init_branch.
  - apply encodings_satisfy_steps.
    + apply same_recipe_branch_has_range.
    + apply Encoding_init_branch.
Qed.

Lemma Encoding_branch_range_checked_witness :
  Encoding_init 0%nat (SpecInst (MaybeBoundInst.mk demo_branch [] true))
    0%nat 1 None None demo_world
  = inl (AssertionError BranchRangeError).
Proof.
  destruct Encoding_branch_range_checked as (Hfail & _ & _).
  eapply (Hfail _ _ _ _ _ _ demo_world (demo_recipe "R0")).
  - compute_done.
  - reflexivity.
  - reflexivity.
  - reflexivity.
  - reflexivity.
  - reflexivity.
Defined.

(** C6, as the claim states it: a branch instruction and a recipe without
    [branch_range], yet the failure is the format assertion. *)
Lemma Encoding_branch_fails_on_format :
  Instruction.is_branch demo_jump = true
  ∧ EncRecipe.branch_range <$> recipes demo_world !! 0%nat = Some None
  ∧ Encoding_init 0%nat (SpecInst (MaybeBoundInst.mk demo_jump [] true))
      0%nat 1 None None demo_world
    = inl (AssertionError FormatMismatchError)
  ∧ AssertionError FormatMismatchError ≠ AssertionError BranchRangeError.
Proof. split_and!; [reflexivity..|discriminate]. Qed.

(** * Predicates of an encoding *)

Lemma And_combine_is_conjunction a b w c w' :
  And_combine a b w = inr (c, w') → is_conjunction w' a b c.
Proof.
  destruct a as [p|], b as [q|]; simpl;
    rewrite ?And_combine_absent_l, ?And_combine_absent_r;
    try (by intros [= <- <-]).
  intros H. bind_inv H. apply getattr_inv in E as (node & Hp & [= -> ->]).
  injection H as <- <-. eexists _, _. split; [done|]. simpl.
  by rewrite lookup_insert_eq.
Qed.

Lemma is_conjunction_extended w w' a b c :
  preds_extended w w' → is_conjunction w a b c → is_conjunction w' a b c.
Proof.
  intros (_ & _ & _ & _ & _ & Hsub). unfold is_conjunction.
  destruct a as [p|], b as [q|]; try done.
  intros (r & node & ? & Hr & ?). exists r, node.
  split; [done|]. split; [|done]. by eapply lookup_weaken.
Qed.

(** C8.  In every encoding that [Encoding.__init__] returns, [instp] is
    AND(recipe.instp, p), where p is the caller's [instp] for a plain
    instruction and AND(caller's instp, predicate of the operands) for an
    applied one, and [isap] is AND(recipe.isap, caller's isap); AND with an
    absent predicate returns the other operand. *)
Theorem Encoding_predicates_combined :
  (∀ cpumode inst recipe encbits instp isap w e w',
     Encoding_init cpumode inst recipe encbits instp isap w = inr (e, w') →
     ∃ rcp p,
       recipes w !! recipe = Some rcp
       ∧ match inst with
         | SpecInst _ => p = instp
         | SpecApply a => is_conjunction w' instp (Apply.inst_predicate a) p
         end
       ∧ is_conjunction w' (EncRecipe.instp rcp) p (Encoding.instp e)
       ∧ is_conjunction w' (EncRecipe.isap rcp) isap (Encoding.isap e))
  ∧ (∀ a w, And_combine a None w = inr (a, w))
  ∧ (∀ b w, And_combine None b w = inr (b, w)).
Proof.
  split_and!; [|apply And_combine_absent_r|apply And_combine_absent_l].
  intros cpumode inst recipe encbits instp isap w e w'
    (rcp & p & i & tvs & w1 & w2 & _ & Hrcp & Hres & _ & _ & Hp & Hs & _
     & _)%Encoding_init_inv.
  exists rcp, p. split_and!.
  - done.
  - destruct inst as [a|mb]; simpl in Hres.
    + bind_inv Hres. injection Hres as <- _ _ <-.
      eapply is_conjunction_extended; [|by eapply And_combine_is_conjunction].
      eapply preds_extended_trans; by eapply And_combine_extends.
    + unfold fully_bound in Hres.
      destruct (MaybeBoundInst.all_typevars_bound mb); [|done].
      by injection Hres as <- _ _ _.
  - eapply is_conjunction_extended; [|by eapply And_combine_is_conjunction].
    by eapply And_combine_extends.
  - by eapply And_combine_is_conjunction.
Qed.

Lemma Encoding_predicates_combined_witness :
  ∃ e w',
    Encoding_init 0%nat (SpecApply (Apply.mk demo_iadd ["i32"%string] (Some 2%nat)))
      0%nat 1 (Some 0%nat) (Some 1%nat) demo_world = inr (e, w')
    ∧ Encoding.instp e = Some 4%nat
    ∧ (PredNode.expr <$> preds w' !! 4%nat) = Some (PAnd [0%nat; 2%nat])
    ∧ Encoding.isap e = Some 1%nat.
Proof.
  eexists _, _. split; [vm_compute; reflexivity|].
  destruct Encoding_predicates_combined as (H & _ & _).
  edestruct (H 0%nat (SpecApply (Apply.mk demo_iadd ["i32"%string] (Some 2%nat)))
               0%nat 1 (Some 0%nat) (Some 1%nat) demo_world)
    as (rcp & p & Hrcp & Hp & Hinstp & Hisap); [vm_compute; reflexivity|].
  split_and!; reflexivity.
Defined.

(** * Constructing recipes *)

#[global] Instance valid_constraint_dec format c :
  Decision (valid_constraint format c).
Proof. destruct c; simpl; apply _. Defined.

#[global] Instance valid_arity_dec format ins : Decision (valid_arity format ins).
Proof. unfold valid_arity. apply _. Defined.

Lemma verify_constraint_run format c w :
  match c with
  | CInt c =>
      assert_ (bool_decide (c >= 0)) ConstraintError ;;
      if negb (InstructionFormat.has_value_list format)
      then assert_ (bool_decide (c < InstructionFormat.num_value_operands format))
                   ConstraintError
      else mret tt
  | CRegClass _ | CRegister _ _ => mret tt
  | COther _ => raise (AssertionError ConstraintError)
  end w
  = if decide (valid_constraint format c) then inr (tt, w)
    else inl (AssertionError ConstraintError).
Proof.
  destruct c as [z| | |]; simpl; try done.
  rewrite bind_run. unfold assert_.
  destruct (InstructionFormat.has_value_list format);
    repeat case_bool_decide; simpl; repeat case_decide; try done;
    exfalso; intuition (try lia; try discriminate).
Qed.

Lemma verify_constraints_run format seq w :
  _verify_constraints format seq w
  = if decide (Forall (valid_constraint format) (constraint_list seq))
    then inr (constraint_list seq, w)
    else inl (AssertionError ConstraintError).
Proof.
  unfold _verify_constraints. fold (constraint_list seq).
  generalize (constraint_list seq) as l. intros l. cbv zeta.
  rewrite bind_run. unfold forM_.
  assert (∀ k, foldM (λ _ c,
      match c with
      | CInt c =>
          assert_ (bool_decide (c >= 0)) ConstraintError ;;
          if negb (InstructionFormat.has_value_list format)
          then assert_ (bool_decide
                 (c < InstructionFormat.num_value_operands format))
                 ConstraintError
          else mret tt
      | CRegClass _ | CRegister _ _ => mret tt
      | COther _ => raise (AssertionError ConstraintError)
      end) tt k w
    = if decide (Forall (valid_constraint format) k) then inr (tt, w)
      else inl (AssertionError ConstraintError)) as Hloop.
  { induction k as [|c k IH].
    - by rewrite decide_True by constructor.
    - rewrite foldM_cons, verify_constraint_run.
      destruct (decide (valid_constraint format c)) as [Hc|Hc].
      + rewrite IH. destruct (decide (Forall _ k)) as [Hk|Hk].
        * by rewrite decide_True by by constructor.
        * rewrite decide_False; [done|]. by intros [_ ?]%Forall_cons.
      + rewrite decide_False; [done|]. by intros [? _]%Forall_cons. }
  rewrite Hloop. by destruct (decide _).
Qed.

(** [EncRecipe.__init__], check by check. *)
Lemma EncRecipe_init_eq name format size ins outs br instp isap w :
  EncRecipe_init name format size ins outs br instp isap w
  = if decide (size < 0) then inl (AssertionError SizeError)
    else match instp_check format instp w with
    | Some e => inl e
    | None =>
      if decide (Forall (valid_constraint format) (constraint_list ins)) then
        if decide (valid_arity format (constraint_list ins)) then
          if decide (Forall (valid_constraint format) (constraint_list outs))
          then inr (EncRecipe.mk name format size br instp isap None
                      (constraint_list ins) (constraint_list outs), w)
          else inl (AssertionError ConstraintError)
        else inl (AssertionError ArityError)
      else inl (AssertionError ConstraintError)
    end.
Proof.
  unfold EncRecipe_init. rewrite bind_run. unfold assert_ at 1.
  case_bool_decide as Hsize; [rewrite decide_False by lia|by rewrite decide_True by lia].
  unfold mret at 1, M_ret at 1. rewrite bind_run.
  assert (match instp with
          | Some p =>
              ctx ← getattr preds PredNode.context "predicate_context" p;
              assert_ (bool_decide (ctx = CtxFormat format)) PredicateContextError
          | None => mret tt
          end w
          = match instp_check format instp w with
            | Some e => inl e
            | None => inr (tt, w)
            end) as ->.
  { unfold instp_check. destruct instp as [p|]; [|done].
    rewrite bind_run. unfold getattr. destruct (preds w !! p) as [node|]; [|done].
    unfold assert_. case_bool_decide; by case_decide. }
  destruct (instp_check format instp w); [done|].
  rewrite bind_run, verify_constraints_run.
  destruct (decide (Forall _ (constraint_list ins))); [|done].
  rewrite bind_run.
  destruct (decide (valid_arity format (constraint_list ins))) as [Har|Har];
    unfold valid_arity in Har;
    destruct (InstructionFormat.has_value_list format) eqn:Hvl; simpl.
  - unfold mret at 1, M_ret at 1.
    rewrite bind_run, verify_constraints_run. by destruct (decide _).
  - rewrite bool_decide_eq_true_2 by by apply Har.
    rewrite assert_true, bind_run, verify_constraints_run.
    by destruct (decide _).
  - exfalso. apply Har. discriminate.
  - rewrite bool_decide_eq_false_2; [done|]. intros Heq. by apply Har.
Qed.

Section recipes_satisfy.
Context (Q : EncRecipe.t → Prop).
Hypothesis Q_same : ∀ r r', same_recipe r r' → Q r → Q r'.
Hypothesis Q_init : ∀ name format size ins outs br instp isap w obj w',
  EncRecipe_init name format size ins outs br instp isap w = inr (obj, w') →
  Q obj.

Lemma recipes_satisfy_step w w' :
  api_step w w' → recipes_satisfy Q w → recipes_satisfy Q w'.
Proof.
  intros Hstep Hinv. destruct Hstep as
    [name groups w r w' H|isa s w|name isa w r w' H
    |name format size ins outs br instp isap w r w' H
    |self inst recipe encbits instp isap w w' H|self w r w' H].
  - apply TargetISA_new_inv in H as (_ & ->). done.
  - done.
  - apply CPUMode_new_inv in H as (i & _ & _ & ->). done.
  - apply EncRecipe_new_inv in H as (obj & Hinit & -> & ->).
    intros r rcp. simpl. rewrite lookup_insert.
    case_decide; [|by apply Hinv]. intros [= <-]. by eapply Q_init.
  - apply enc_inv in H as (e & w1 & Hinit & ->).
    apply Encoding_init_inv in Hinit
      as (_ & _ & _ & _ & _ & _ & _ & _ & _ & _ & _ & _ & _ & _
          & (_ & _ & Hr & _)).
    intros r rcp. simpl. rewrite Hr. apply Hinv.
  - apply finish_keeps_definitions in H as [_ Hr].
    intros r' rcp' Hrcp'. specialize (Hr r'). rewrite Hrcp' in Hr.
    inversion Hr as [rcp ? Hsame Heq|]; subst.
    eapply Q_same; [done|]. eapply Hinv. by symmetry.
Qed.

Lemma recipes_satisfy_steps w w' :
  rtc api_step w w' → recipes_satisfy Q w → recipes_satisfy Q w'.
Proof.
  induction 1 as [|w1 w2 w3 Hstep _ IH]; [done|].
  intros. by eapply IH, recipes_satisfy_step.
Qed.

End recipes_satisfy.

Lemma EncRecipe_init_valid name format size ins outs br instp isap w obj w' :
  EncRecipe_init name format size ins outs br instp isap w = inr (obj, w') →
  obj = EncRecipe.mk name format size br instp isap None
          (constraint_list ins) (constraint_list outs)
  ∧ 0 ≤ size
  ∧ valid_constraints format (constraint_list ins) (constraint_list outs).
Proof.
  rewrite EncRecipe_init_eq.
  destruct (instp_check format instp w); repeat case_decide; try done.
  intros [= <- <-]. split_and!; [done|lia|by unfold valid_constraints].
Qed.

(** C7.  [EncRecipe.__init__] returns a recipe only if every integer
    constraint of [ins] and [outs] is non-negative and, for a format without
    a value list, below [num_value_operands], every other constraint is a
    register class or a register, and, for a format without a value list,
    [ins] has [num_value_operands] entries.  Any violation makes it fail:
    with the constraint or the arity assertion, once the earlier checks of
    [size] and [instp] have passed.  So the validation holds of every recipe
    of every store reached by the operations of the module. *)
Theorem EncRecipe_constraints_checked :
  (∀ name format size ins outs br instp isap w obj w',
     EncRecipe_init name format size ins outs br instp isap w = inr (obj, w') →
     valid_constraints format (constraint_list ins) (constraint_list outs)
     ∧ EncRecipe.format obj = format
     ∧ EncRecipe.ins obj = constraint_list ins
     ∧ EncRecipe.outs obj = constraint_list outs)
  ∧ (∀ name format size ins outs br instp isap w,
       ¬ valid_constraints format (constraint_list ins) (constraint_list outs) →
       ∃ e, EncRecipe_init name format size ins outs br instp isap w = inl e)
  ∧ (∀ name format size ins outs br instp isap w,
       ¬ valid_constraints format (constraint_list ins) (constraint_list outs) →
       0 ≤ size → instp_check format instp w = None →
       EncRecipe_init name format size ins outs br instp isap w
       = inl (AssertionError ConstraintError)
       ∨ EncRecipe_init name format size ins outs br instp isap w
         = inl (AssertionError ArityError))
  ∧ (∀ w w', rtc api_step w w' →
       recipes_satisfy recipe_valid w → recipes_satisfy recipe_valid w').
Proof.
  split_and!.
  - intros name format size ins outs br instp isap w obj w'
      (-> & _ & Hvalid)%EncRecipe_init_valid. by split_and!.
  - intros name format size ins outs br instp isap w Hinvalid.
    destruct (EncRecipe_init name format size ins outs br instp isap w)
      as [e|[obj w']] eqn:Hinit; [by exists e|].
    by apply EncRecipe_init_valid in Hinit as (_ & _ & ?).
  - intros name format size ins outs br instp isap w Hinvalid Hsize Hinstp.
    rewrite EncRecipe_init_eq, decide_False, Hinstp by lia.
    repeat case_decide; eauto. by destruct Hinvalid.
  - apply recipes_satisfy_steps.
    + intros r r' (_ & Hf & _ & _ & _ & _ & Hi & Ho).
      unfold recipe_valid. by rewrite Hf, Hi, Ho.
    + intros name format size ins outs br instp isap w obj w'
        (-> & _ & Hvalid)%EncRecipe_init_valid. done.
Qed.

Lemma EncRecipe_constraints_checked_witness :
  EncRecipe_init "R" demo_format 4 (SeqSingle (CRegClass 0%nat))
    (SeqSingle (CInt 0)) None None None demo_world
  = inl (AssertionError ArityError)
  ∧ EncRecipe_init "R" demo_format 4
      (SeqTuple [CRegClass 0%nat; CRegClass 0%nat]) (SeqSingle (CInt 2))
      None None None demo_world
    = inl (AssertionError ConstraintError).
Proof.
  destruct EncRecipe_constraints_checked as (_ & _ & Hkind & _).
  split.
  - destruct (Hkind "R"%string demo_format 4 (SeqSingle (CRegClass 0%nat))
               (SeqSingle (CInt 0)) None None None demo_world)
      as [H|H]; [|done|done|by vm_compute in H|done].
    intros (_ & _ & Har). by specialize (Har eq_refl).
  - destruct (Hkind "R"%string demo_format 4
               (SeqTuple [CRegClass 0%nat; CRegClass 0%nat])
               (SeqSingle (CInt 2)) None None None demo_world)
      as [H|H]; [|done|done|done|by vm_compute in H].
    intros (_ & Ho & _). apply Forall_cons in Ho as [[_ Hlt] _].
    by specialize (Hlt eq_refl).
Defined.

(** C9.  [EncRecipe.__init__] fails with the size assertion whenever
    [size < 0], whatever the other arguments are; every recipe it returns has
    the given size, which is non-negative; and so has every recipe of every
    store reached by the operations of the module. *)
Theorem EncRecipe_size_checked :
  (∀ name format size ins outs br instp isap w,
     size < 0 →
     EncRecipe_init name format size ins outs br instp isap w
     = inl (AssertionError SizeError))
  ∧ (∀ name format size ins outs br instp isap w obj w',
       EncRecipe_init name format size ins outs br instp isap w = inr (obj, w') →
       EncRecipe.size obj = size ∧ 0 ≤ EncRecipe.size obj)
  ∧ (∀ w w', rtc api_step w w' →
       recipes_satisfy (λ rcp, 0 ≤ EncRecipe.size rcp) w →
       recipes_satisfy (λ rcp, 0 ≤ EncRecipe.size rcp) w').
Proof.
  split_and!.
  - intros name format size ins outs br instp isap w Hneg.
    by rewrite EncRecipe_init_eq, decide_True.
  - intros name format size ins outs br instp isap w obj w'
      (-> & Hsize & _)%EncRecipe_init_valid. done.
  - apply recipes_satisfy_steps.
    + intros r r' (_ & _ & Hs & _). by rewrite Hs.
    + intros name format size ins outs br instp isap w obj w'
        (-> & Hsize & _)%EncRecipe_init_valid. done.
Qed.

Lemma EncRecipe_size_checked_witness :
  EncRecipe_init "R" demo_format (-1) (SeqSingle (COther "x"))
    (SeqSingle (CInt 7)) None None None demo_world
  = inl (AssertionError SizeError).
Proof.
  destruct EncRecipe_size_checked as (Hneg & _ & _). by apply Hneg.
Defined.

(** * Further properties of the constructors *)

Lemma instp_check_None format instp w :
  instp_check format instp w = None
  ↔ ∀ p, instp = Some p →
         PredNode.context <$> preds w !! p = Some (CtxFormat format).
Proof.
  unfold instp_check. destruct instp as [p|]; [|by split].
  destruct (preds w !! p) as [node|] eqn:Hp.
  - case_decide as Hctx; split.
    + intros _ ? [= <-]. rewrite Hp. simpl. by rewrite Hctx.
    + done.
    + done.
    + intros H. specialize (H p eq_refl). rewrite Hp in H.
      injection H as H. by destruct Hctx.
  - split; [done|]. intros H. specialize (H p eq_refl). by rewrite Hp in H.
Qed.

(** X1.  [EncRecipe.__init__] has no check besides the five assertions: it
    returns the recipe with the given fields, [number] unset and the
    constraints as tuples, exactly when [size] is non-negative, the context
    of [instp] (if one is given) is the format, and the constraints are
    valid. *)
Theorem EncRecipe_init_succeeds_iff name format size ins outs br instp isap w :
  EncRecipe_init name format size ins outs br instp isap w
  = inr (EncRecipe.mk name format size br instp isap None
           (constraint_list ins) (constraint_list outs), w)
  ↔ 0 ≤ size
    ∧ (∀ p, instp = Some p →
            PredNode.context <$> preds w !! p = Some (CtxFormat format))
    ∧ valid_constraints format (constraint_list ins) (constraint_list outs).
Proof.
  rewrite <-instp_check_None, EncRecipe_init_eq. unfold valid_constraints.
  destruct (instp_check format instp w); repeat case_decide;
    split; try done; try (intros (? & ? & ? & ? & ?); done || lia).
  intros _. split_and!; [lia|done..].
Qed.

(** X2.  An instruction predicate whose context is not the format of the
    recipe makes [EncRecipe.__init__] fail with the predicate-context
    assertion, before any constraint is looked at. *)
Theorem EncRecipe_instp_context_checked
    name format size ins outs br p isap w node :
  0 ≤ size →
  preds w !! p = Some node →
  PredNode.context node ≠ CtxFormat format →
  EncRecipe_init name format size ins outs br (Some p) isap w
  = inl (AssertionError PredicateContextError).
Proof.
  intros Hsize Hp Hctx. rewrite EncRecipe_init_eq, decide_False by lia.
  unfold instp_check. rewrite Hp. by rewrite decide_False.
Qed.

Lemma EncRecipe_instp_context_checked_witness :
  EncRecipe_init "R" demo_format 4 (SeqSingle (COther "x"))
    (SeqSingle (CInt 7)) None (Some 1%nat) None demo_world
  = inl (AssertionError PredicateContextError).
Proof.
  eapply (EncRecipe_instp_context_checked _ _ _ _ _ _ _ _ demo_world);
    [done|reflexivity|discriminate].
Defined.

(** X3.  [assert recipe.branch_range] tests the truth value: an empty
    [branch_range] is rejected like a missing one.  For an instruction that
    is not a branch, [branch_range] is not consulted: the construction goes
    on to combine the predicates. *)
Theorem Encoding_branch_range_truth_value :
  (∀ cpumode inst recipe encbits instp isap w rcp p i tvs w1,
     cpumode ∈ dom (modes w) →
     recipes w !! recipe = Some rcp →
     resolve_inst inst instp w = inr ((p, i, tvs), w1) →
     Instruction.format i = EncRecipe.format rcp →
     Instruction.is_branch i = true →
     EncRecipe.branch_range rcp = Some [] →
     Encoding_init cpumode inst recipe encbits instp isap w
     = inl (AssertionError BranchRangeError))
  ∧ (∀ cpumode inst recipe encbits instp isap w rcp p i tvs w1,
       cpumode ∈ dom (modes w) →
       recipes w !! recipe = Some rcp →
       resolve_inst inst instp w = inr ((p, i, tvs), w1) →
       Instruction.format i = EncRecipe.format rcp →
       Instruction.is_branch i = false →
       Encoding_init cpumode inst recipe encbits instp isap w
       = combine_predicates cpumode i tvs recipe rcp encbits p isap w1).
Proof.
  split.
  - intros cpumode inst recipe encbits instp isap w rcp p i tvs w1
      Hmode Hrcp Hres Hfmt Hbr Hempty.
    rewrite Encoding_init_eq, bool_decide_eq_true_2, Hrcp, Hres by done.
    by rewrite bool_decide_eq_true_2, Hbr, Hempty by done.
  - intros cpumode inst recipe encbits instp isap w rcp p i tvs w1
      Hmode Hrcp Hres Hfmt Hbr.
    rewrite Encoding_init_eq, bool_decide_eq_true_2, Hrcp, Hres by done.
    by rewrite bool_decide_eq_true_2, Hbr by done.
Qed.

Lemma Encoding_branch_range_truth_value_witness :
  Encoding_init 0%nat (SpecInst (MaybeBoundInst.mk demo_branch [] true))
    5%nat 1 None None branch_world
  = inl (AssertionError BranchRangeError).
Proof.
  destruct Encoding_branch_range_truth_value as (Hfail & _).
  eapply (Hfail _ _ 5%nat _ _ _ branch_world); [compute_done|reflexivity..].
Defined.

(** X4.  For an applied instruction, the encoding takes the instruction and
    the type variables of the [Apply] node; whatever the specification, it
    stores the CPU mode, the recipe and the encoding bits it was given; its
    controlling type variable is the first type variable, or [None] when
    there is none. *)
Theorem Encoding_init_fields cpumode inst recipe encbits instp isap w e w' :
  Encoding_init cpumode inst recipe encbits instp isap w = inr (e, w') →
  Encoding.cpumode e = cpumode
  ∧ Encoding.recipe e = recipe
  ∧ Encoding.encbits e = encbits
  ∧ ctrl_typevar e = head (Encoding.typevars e)
  ∧ (∀ a, inst = SpecApply a →
          Encoding.inst e = Apply.inst a
          ∧ Encoding.typevars e = Apply.typevars a).
Proof.
  intros (rcp & p & i & tvs & w1 & w2 & _ & _ & Hres & _ & _ & _ & _ & ->
          & _)%Encoding_init_inv.
  split_and!; try done.
  intros a ->. simpl in *. bind_inv Hres. by injection Hres as _ <- <- _.
Qed.

Lemma Encoding_init_fields_witness :
  ∃ e w',
    Encoding_init 0%nat (SpecApply (Apply.mk demo_iadd ["i32"%string] (Some 2%nat)))
      0%nat 1 (Some 0%nat) (Some 1%nat) demo_world = inr (e, w')
    ∧ Encoding.encbits e = 1
    ∧ ctrl_typevar e = Some "i32"%string.
Proof.
  eexists _, _. split; [vm_compute; reflexivity|].
  edestruct (Encoding_init_fields 0%nat
               (SpecApply (Apply.mk demo_iadd ["i32"%string] (Some 2%nat)))
               0%nat 1 (Some 0%nat) (Some 1%nat) demo_world)
    as (_ & _ & Hbits & Hctrl & _); [vm_compute; reflexivity|].
  split; [exact Hbits|exact Hctrl].
Defined.

(** X5.  A successful [CPUMode.enc] appends exactly one encoding, bound to
    this mode, the given recipe and the given bits, to the encodings of this
    mode; it changes no other CPU mode, no recipe, no ISA, no register bank
    or class, and no existing predicate. *)
Theorem enc_appends self inst recipe encbits instp isap w w' :
  enc self inst recipe encbits instp isap w = inr (tt, w') →
  ∃ cm e,
    modes w !! self = Some cm
    ∧ modes w' = <[self := CPUMode.mk (CPUMode.name cm) (CPUMode.isa cm)
                             (CPUMode.encodings cm ++ [e])]> (modes w)
    ∧ Encoding.cpumode e = self
    ∧ Encoding.recipe e = recipe
    ∧ Encoding.encbits e = encbits
    ∧ recipes w' = recipes w
    ∧ isas w' = isas w
    ∧ banks w' = banks w
    ∧ regclasses w' = regclasses w
    ∧ preds w ⊆ preds w'.
Proof.
  intros (e & w1 & Hinit & ->)%enc_inv.
  pose proof Hinit as (rcp & p & i & tvs & w0 & w2 & Hmode & _ & _ & _ & _
    & _ & _ & He & (Hi & Hm & Hr & Hb & Hc & Hp))%Encoding_init_inv.
  apply elem_of_dom in Hmode as [cm Hcm].
  exists cm, e. simpl. rewrite Hm, He. split_and!; try done.
  apply map_eq. intros m. destruct (decide (m = self)) as [->|Hne].
  - by rewrite lookup_alter_eq, lookup_insert_eq, Hcm.
  - by rewrite lookup_alter_ne, lookup_insert_ne.
Qed.

Lemma enc_appends_witness :
  ∃ w', enc 1%nat (SpecInst (MaybeBoundInst.mk demo_iadd ["i64"%string] true))
          2%nat 33 None None demo_world = inr (tt, w')
    ∧ (length ∘ CPUMode.encodings <$> modes w' !! 1%nat) = Some 3%nat
    ∧ modes w' !! 0%nat = modes demo_world !! 0%nat
    ∧ recipes w' = recipes demo_world.
Proof.
  eexists. split; [vm_compute; reflexivity|].
  edestruct (enc_appends 1%nat
               (SpecInst (MaybeBoundInst.mk demo_iadd ["i64"%string] true))
               2%nat 33 None None demo_world)
    as (cm & e & Hcm & Hm & _ & _ & _ & Hr & _); [vm_compute; reflexivity|].
  split_and!; [|by rewrite Hm, lookup_insert_ne|exact Hr].
  rewrite Hm, lookup_insert_eq. simpl. rewrite length_app.
  assert (modes demo_world !! 1%nat
          = Some (CPUMode.mk "RV64" 0%nat
                    [demo_enc 1 1 16 (Some 2%nat) (Some 1%nat);
                     demo_enc 1 0 17 (Some 0%nat) None])) as Hdemo
    by reflexivity.
  rewrite Hdemo in Hcm. by injection Hcm as <-.
Defined.

(** * Invariants of the stores the module builds *)

#[global] Instance encodings_owned_dec w : Decision (encodings_owned w).
Proof. unfold encodings_owned. apply _. Defined.

#[global] Instance modes_registered_dec w : Decision (modes_registered w).
Proof. unfold modes_registered. apply _. Defined.

#[global] Instance same_isa_definition_preorder : PreOrder same_isa_definition.
Proof.
  split.
  - intros i. by unfold same_isa_definition.
  - intros i1 i2 i3. unfold same_isa_definition. intuition congruence.
Qed.

#[global] Instance structure_kept_preorder : PreOrder structure_kept.
Proof.
  split.
  - intros w. split_and!; [done..|]. intros a. reflexivity.
  - intros w1 w2 w3 (Hm1 & Hb1 & Hi1) (Hm2 & Hb2 & Hi2).
    split_and!; [congruence..|]. intros a. etrans; [apply Hi1|apply Hi2].
Qed.

Lemma structure_kept_upd_isas f self w :
  (∀ i, same_isa_definition i (f i)) →
  structure_kept w (upd_isas (alter f self) w).
Proof.
  intros Hf. split_and!; [done..|]. intros a. simpl.
  destruct (decide (self = a)) as [->|Hne].
  - rewrite lookup_alter_eq. destruct (isas w !! a); simpl; constructor.
    apply Hf.
  - rewrite lookup_alter_ne by done. reflexivity.
Qed.

Lemma structure_kept_upd_recipes f w : structure_kept w (upd_recipes f w).
Proof. split_and!; [done..|]. intros a. reflexivity. Qed.

Lemma structure_kept_upd_preds f w : structure_kept w (upd_preds f w).
Proof. split_and!; [done..|]. intros a. reflexivity. Qed.

Lemma structure_kept_upd_regclasses f w :
  structure_kept w (upd_regclasses f w).
Proof. split_and!; [done..|]. intros a. reflexivity. Qed.

(** Whenever [finish] returns, the structure is kept. *)
Lemma finish_keeps_structure self : preserves structure_kept (finish self).
Proof.
  unfold finish, _collect_encoding_recipes, _collect_predicates,
    _collect_regclasses, finish_regclasses, settings_number_predicate,
    set_recipe_number, set_pred_number, set_regclass_index,
    all_recipes_append, all_instps_append.
  repeat first
    [ apply preserves_modify;
        first [ intros ?; apply structure_kept_upd_isas; intros [];
                  by unfold same_isa_definition
              | apply structure_kept_upd_recipes
              | apply structure_kept_upd_preds
              | apply structure_kept_upd_regclasses ]
    | preserves_step ].
Qed.

(** What one operation does to the ISAs, the CPU modes and the banks. *)
Lemma api_step_structure w w' :
  api_step w w' →
  structure_kept w w'
  ∨ (∃ name groups,
       w' = upd_isas <[fresh (dom (isas w))
                       := TargetISA.mk name None groups [] [] None None]> w)
  ∨ (∃ name isa i,
       isas w !! isa = Some i
       ∧ w' = upd_isas
                (alter (TargetISA.set_cpumodes
                          (TargetISA.cpumodes i ++ [fresh (dom (modes w))]))
                   isa)
                (upd_modes <[fresh (dom (modes w))
                             := CPUMode.mk name isa []]> w))
  ∨ (∃ self e,
       Encoding.cpumode e = self
       ∧ isas w' = isas w ∧ banks w' = banks w
       ∧ modes w' = alter (CPUMode.append_encoding e) self (modes w)).
Proof.
  intros Hstep. destruct Hstep as
    [name groups w r w' H|isa s w|name isa w r w' H
    |name format size ins outs br instp isap w r w' H
    |self inst recipe encbits instp isap w w' H|self w r w' H].
  - apply TargetISA_new_inv in H as (-> & ->). right. left. by eexists _, _.
  - left. apply structure_kept_upd_isas. intros [].
    by unfold same_isa_definition.
  - apply CPUMode_new_inv in H as (i & Hi & -> & ->).
    right. right. left. by eexists _, _, _.
  - apply EncRecipe_new_inv in H as (obj & _ & -> & ->).
    left. apply structure_kept_upd_recipes.
  - apply enc_inv in H as (e & w1 & Hinit & ->).
    pose proof Hinit as (rcp & p & i & tvs & w0 & w2 & _ & _ & _ & _ & _
      & _ & _ & He & (Hi & Hm & _ & Hb & _))%Encoding_init_inv.
    right. right. right. exists self, e. simpl.
    split_and!; [by rewrite He|done|done|by rewrite Hm].
  - left. by eapply finish_keeps_structure.
Qed.

Lemma encodings_owned_step w w' :
  api_step w w' → encodings_owned w → encodings_owned w'.
Proof.
  intros Hstep Hinv. unfold encodings_owned in *.
  destruct (api_step_structure _ _ Hstep)
    as [(Hm & _)|[(name & groups & ->)|[(name & isa & i & Hi & ->)
       |(self & e & He & _ & _ & Hm)]]].
  - by rewrite Hm.
  - done.
  - simpl. apply map_Forall_insert_2; [constructor|done].
  - rewrite Hm. intros m cm Hcm.
    destruct (decide (self = m)) as [<-|Hne].
    + rewrite lookup_alter_eq in Hcm.
      destruct (modes w !! self) as [cm0|] eqn:Hcm0; [|done].
      injection Hcm as <-. simpl. apply Forall_app. split.
      * by apply (Hinv self cm0).
      * by repeat constructor.
    + rewrite lookup_alter_ne in Hcm by done. by apply (Hinv m cm).
Qed.

Lemma encodings_owned_rtc w w' :
  rtc api_step w w' → encodings_owned w → encodings_owned w'.
Proof.
  induction 1 as [|w1 w2 w3 Hstep _ IH]; [done|].
  intros. by eapply IH, encodings_owned_step.
Qed.

#[global] Instance lists_grow_preorder : PreOrder lists_grow.
Proof.
  split.
  - intros w. split.
    + intros a i Hi. by exists i.
    + intros m cm Hcm. by exists cm.
  - intros w1 w2 w3 (Hi1 & Hm1) (Hi2 & Hm2). split.
    + intros a i Hi. destruct (Hi1 a i Hi) as (i' & Hi' & Hp).
      destruct (Hi2 a i' Hi') as (i'' & Hi'' & Hp').
      exists i''. split; [done|]. by etrans.
    + intros m cm Hcm.
      destruct (Hm1 m cm Hcm) as (cm' & Hcm' & Hn & Ha & Hp).
      destruct (Hm2 m cm' Hcm') as (cm'' & Hcm'' & Hn' & Ha' & Hp').
      exists cm''. split_and!; [done|congruence|congruence|by etrans].
Qed.

(** No operation removes an ISA or a CPU mode, or removes or moves an entry
    of [isa.cpumodes] or of [cpumode.encodings]. *)
Lemma api_step_grows w w' : api_step w w' → lists_grow w w'.
Proof.
  intros Hstep.
  destruct (api_step_structure _ _ Hstep)
    as [(Hm & _ & Hi)|[(name & groups & ->)|[(name & isa & i & Hi & ->)
       |(self & e & He & Hi & _ & Hm)]]].
  - split.
    + intros a i Hai. specialize (Hi a). rewrite Hai in Hi.
      inversion Hi as [? i' (_ & _ & Hcm & _) Heq1 Heq2|]; subst.
      exists i'. split; [done|]. by rewrite Hcm.
    + intros m cm Hcm. exists cm. by rewrite Hm.
  - split.
    + intros a i Hai. exists i. split; [|done]. simpl.
      rewrite lookup_insert_ne; [done|].
      intros <-. by rewrite (not_elem_of_dom_1 _ _ (is_fresh (dom (isas w))))
        in Hai.
    + intros m cm Hcm. by exists cm.
  - split.
    + intros a j Haj. simpl. destruct (decide (isa = a)) as [<-|Hne].
      * rewrite lookup_alter_eq, Hi. simpl. eexists. split; [done|].
        simpl. assert (j = i) as -> by congruence. by apply prefix_app_r.
      * rewrite lookup_alter_ne by done. by exists j.
    + intros m cm Hcm. exists cm. split; [|done]. simpl.
      rewrite lookup_insert_ne; [done|].
      intros <-. by rewrite (not_elem_of_dom_1 _ _ (is_fresh (dom (modes w))))
        in Hcm.
  - split.
    + intros a i Hai. exists i. by rewrite Hi.
    + intros m cm Hcm. rewrite Hm. destruct (decide (self = m)) as [<-|Hne].
      * rewrite lookup_alter_eq, Hcm. simpl. eexists. split; [done|].
        simpl. split_and!; [done..|]. by apply prefix_app_r.
      * rewrite lookup_alter_ne by done. by exists cm.
Qed.

Lemma api_steps_grow w w' : rtc api_step w w' → lists_grow w w'.
Proof.
  induction 1 as [|w1 w2 w3 Hstep _ IH]; [reflexivity|].
  etrans; [by apply api_step_grows|done].
Qed.

(** X6.  An encoding made by [CPUMode.enc] names this CPU mode in its
    [cpumode] field and is put at the end of this mode's [encodings]; in
    every store the operations of the module lead to afterwards it is still
    listed by this mode, at the position [enc] gave it; and no CPU mode ever
    lists an encoding whose [cpumode] field names another mode. *)
Theorem encodings_owned_steps self inst recipe encbits instp isap w0 w w1 w2 :
  encodings_owned w0 →
  rtc api_step w0 w →
  enc self inst recipe encbits instp isap w = inr (tt, w1) →
  rtc api_step w1 w2 →
  ∃ cm e cm2,
    modes w !! self = Some cm
    ∧ (CPUMode.encodings <$> modes w1 !! self)
      = Some (CPUMode.encodings cm ++ [e])
    ∧ Encoding.cpumode e = self
    ∧ Encoding.recipe e = recipe
    ∧ Encoding.encbits e = encbits
    ∧ modes w2 !! self = Some cm2
    ∧ (CPUMode.encodings cm ++ [e]) `prefix_of` CPUMode.encodings cm2
    ∧ encodings_owned w2.
Proof.
  intros Hinv H0 Henc H2.
  assert (encodings_owned w2) as Hinv2.
  { eapply encodings_owned_rtc; [exact H2|].
    eapply encodings_owned_step; [by eapply step_enc|].
    by eapply encodings_owned_rtc. }
  apply enc_inv in Henc as (e & w' & Hinit & ->).
  pose proof Hinit as (rcp & p & i & tvs & wa & wb & Hdom & _ & _ & _ & _
    & _ & _ & He & (_ & Hm & _))%Encoding_init_inv.
  apply elem_of_dom in Hdom as (cm & Hcm).
  assert (modes (upd_modes (alter (CPUMode.append_encoding e) self) w') !! self
          = Some (CPUMode.append_encoding e cm)) as Hcm1.
  { simpl. by rewrite lookup_alter_eq, Hm, Hcm. }
  destruct (api_steps_grow _ _ H2) as (_ & Hgrow).
  destruct (Hgrow _ _ Hcm1) as (cm2 & Hcm2 & _ & _ & Hp).
  exists cm, e, cm2. split_and!; try done.
  - by rewrite Hcm1.
  - by rewrite He.
  - by rewrite He.
  - by rewrite He.
Qed.

Lemma encodings_owned_steps_witness :
  ∃ w2 cm2,
    enc 1%nat (SpecInst (MaybeBoundInst.mk demo_iadd ["i64"%string] true))
        2%nat 33 None None plain_world = inr (tt, plain_world_extended)
    ∧ finish 0%nat plain_world_extended = inr (0%nat, w2)
    ∧ modes w2 !! 1%nat = Some cm2
    ∧ CPUMode.encodings cm2 !! 1%nat
      = Some (Encoding.mk 1%nat demo_iadd ["i64"%string] 2%nat 33 None None)
    ∧ encodings_owned w2.
Proof.
  assert (enc 1%nat (SpecInst (MaybeBoundInst.mk demo_iadd ["i64"%string] true))
            2%nat 33 None None plain_world = inr (tt, plain_world_extended))
    as Henc by (vm_compute; reflexivity).
  assert (∃ w2, finish 0%nat plain_world_extended = inr (0%nat, w2))
    as (w2 & Hfin) by (eexists; vm_compute; reflexivity).
  destruct (encodings_owned_steps 1%nat
              (SpecInst (MaybeBoundInst.mk demo_iadd ["i64"%string] true))
              2%nat 33 None None plain_world plain_world plain_world_extended w2)
    as (cm & e & cm2 & Hcm & Hcm1 & _ & _ & _ & Hcm2 & Hp & Hinv).
  - compute_done.
  - apply rtc_refl.
  - exact Henc.
  - apply rtc_once. by eapply step_finish.
  - exists w2, cm2. split_and!; [exact Henc|exact Hfin|exact Hcm2| |exact Hinv].
    assert (modes plain_world !! 1%nat
            = Some (CPUMode.mk "RV64" 0%nat [demo_enc 1 1 16 (Some 0%nat) None]))
      as Hplain by reflexivity.
    rewrite Hplain in Hcm. injection Hcm as <-.
    assert ((CPUMode.encodings <$> modes plain_world_extended !! 1%nat)
            = Some ([demo_enc 1 1 16 (Some 0%nat) None]
                    ++ [Encoding.mk 1%nat demo_iadd ["i64"%string] 2%nat 33
                          None None])) as Hext by reflexivity.
    rewrite Hext in Hcm1. injection Hcm1 as <-.
    destruct Hp as (k & ->). reflexivity.
Defined.

Lemma modes_registered_step w w' :
  api_step w w' → modes_registered w → modes_registered w'.
Proof.
  intros Hstep Hinv. unfold modes_registered in *.
  destruct (api_step_structure _ _ Hstep)
    as [(Hm & Hb & Hi)|[(name & groups & ->)|[(name & isa & i & Hi & ->)
       |(self & e & He & Hi & Hb & Hm)]]].
  - intros a i' Hi'. specialize (Hi a). rewrite Hi' in Hi.
    inversion Hi as [i ? (_ & _ & Hcm & Hrb) Heq|]; subst.
    rewrite Hm, Hb, Hcm, Hrb. apply (Hinv a i). by symmetry.
  - simpl. apply map_Forall_insert_2; [|done].
    split_and!; constructor.
  - simpl. set (r := fresh (dom (modes w))).
    assert (∀ a j m, isas w !! a = Some j → m ∈ TargetISA.cpumodes j → m ≠ r)
      as Hfresh.
    { intros a j m Hj Hmj ->. destruct (Hinv a j Hj) as (_ & Hall & _).
      rewrite Forall_forall in Hall. specialize (Hall _ Hmj). unfold r in Hall.
      rewrite (not_elem_of_dom_1 _ _ (is_fresh (dom (modes w)))) in Hall.
      done. }
    intros a i' Hi'. destruct (decide (isa = a)) as [<-|Hne].
    + rewrite lookup_alter_eq, Hi in Hi'. injection Hi' as <-. simpl.
      destruct (Hinv isa i Hi) as (Hnd & Hall & Hbanks).
      split_and!; [| |done].
      * apply NoDup_app. split_and!; [done| |apply NoDup_singleton].
        intros m Hm ->%list_elem_of_singleton. by eapply Hfresh.
      * apply Forall_app. split.
        -- rewrite Forall_forall in Hall |- *. intros m Hm.
           rewrite lookup_insert_ne by (apply not_eq_sym; by eapply Hfresh).
           by apply Hall.
        -- repeat constructor. by rewrite lookup_insert_eq.
    + rewrite lookup_alter_ne in Hi' by done.
      destruct (Hinv a i' Hi') as (Hnd & Hall & Hbanks).
      split_and!; [done| |done].
      rewrite Forall_forall in Hall |- *. intros m Hm.
      rewrite lookup_insert_ne by (apply not_eq_sym; by eapply Hfresh).
      by apply Hall.
  - rewrite Hi, Hb, Hm. intros a i Hai.
    destruct (Hinv a i Hai) as (Hnd & Hall & Hbanks).
    split_and!; [done| |done].
    rewrite Forall_forall in Hall |- *. intros m Hmi.
    specialize (Hall m Hmi). destruct (decide (self = m)) as [<-|Hne].
    + rewrite lookup_alter_eq. by destruct (modes w !! self).
    + by rewrite lookup_alter_ne.
Qed.

Lemma modes_registered_rtc w w' :
  rtc api_step w w' → modes_registered w → modes_registered w'.
Proof.
  induction 1 as [|w1 w2 w3 Hstep _ IH]; [done|].
  intros. by eapply IH, modes_registered_step.
Qed.

Lemma modes_listed_inv w m cm :
  modes_listed w → modes w !! m = Some cm →
  ∃ i, isas w !! CPUMode.isa cm = Some i ∧ m ∈ TargetISA.cpumodes i.
Proof.
  intros Hinv Hcm. specialize (Hinv m cm Hcm). simpl in Hinv.
  destruct (isas w !! CPUMode.isa cm) as [i|]; simpl in Hinv.
  - by exists i.
  - by apply elem_of_nil in Hinv.
Qed.

Lemma modes_listed_intro w :
  (∀ m cm, modes w !! m = Some cm →
     ∃ i, isas w !! CPUMode.isa cm = Some i ∧ m ∈ TargetISA.cpumodes i) →
  modes_listed w.
Proof.
  intros H m cm Hcm. destruct (H m cm Hcm) as (i & Hi & Hm). simpl.
  by rewrite Hi.
Qed.

#[global] Instance modes_listed_dec w : Decision (modes_listed w).
Proof. unfold modes_listed. apply _. Defined.

Lemma modes_listed_step w w' :
  api_step w w' → modes_listed w → modes_listed w'.
Proof.
  intros Hstep Hinv. apply modes_listed_intro. intros m cm' Hcm'.
  destruct (api_step_structure _ _ Hstep)
    as [(Hm & _ & Hi)|[(name & groups & ->)|[(name & isa & i & Hi & ->)
       |(self & e & He & Hi & _ & Hm)]]].
  - rewrite Hm in Hcm'.
    destruct (modes_listed_inv _ _ _ Hinv Hcm') as (i & Hai & Hmi).
    specialize (Hi (CPUMode.isa cm')). rewrite Hai in Hi.
    inversion Hi as [? i' (_ & _ & Hcm & _) Heq1 Heq2|]; subst.
    exists i'. split; [done|]. by rewrite Hcm.
  - simpl in *.
    destruct (modes_listed_inv _ _ _ Hinv Hcm') as (i & Hai & Hmi).
    exists i. split; [|done]. rewrite lookup_insert_ne; [done|].
    intros Heq. rewrite <- Heq in Hai.
    by rewrite (not_elem_of_dom_1 _ _ (is_fresh (dom (isas w)))) in Hai.
  - simpl in *. destruct (decide (fresh (dom (modes w)) = m)) as [<-|Hne].
    + rewrite lookup_insert_eq in Hcm'. injection Hcm' as <-. simpl.
      rewrite lookup_alter_eq, Hi. simpl. eexists. split; [done|]. simpl.
      apply elem_of_app. right. by apply list_elem_of_singleton.
    + rewrite lookup_insert_ne in Hcm' by done.
      destruct (modes_listed_inv _ _ _ Hinv Hcm') as (j & Haj & Hmj).
      destruct (decide (isa = CPUMode.isa cm')) as [Heq|Hne'].
      * rewrite <- Heq in *. rewrite lookup_alter_eq, Hi. simpl.
        eexists. split; [done|]. simpl.
        assert (j = i) as -> by congruence.
        apply elem_of_app. by left.
      * rewrite lookup_alter_ne by done. by exists j.
  - rewrite Hi. rewrite Hm in Hcm'.
    destruct (decide (self = m)) as [<-|Hne].
    + rewrite lookup_alter_eq in Hcm'.
      destruct (modes w !! self) as [cm|] eqn:Hcm; [|done].
      injection Hcm' as <-. simpl.
      by destruct (modes_listed_inv _ _ _ Hinv Hcm) as (i & Hai & Hmi); eauto.
    + rewrite lookup_alter_ne in Hcm' by done.
      by apply (modes_listed_inv _ _ _ Hinv Hcm').
Qed.

Lemma modes_listed_rtc w w' :
  rtc api_step w w' → modes_listed w → modes_listed w'.
Proof.
  induction 1 as [|w1 w2 w3 Hstep _ IH]; [done|].
  intros. by eapply IH, modes_listed_step.
Qed.

(** X7.  [CPUMode(name, isa)] makes a new object and puts it at the end of
    [isa.cpumodes]; in every store the operations of the module lead to
    afterwards, the ISA still lists the modes it listed and the new one, at
    these positions, and the new mode still carries its name and its ISA.
    In all these stores the CPU modes an ISA lists are objects of the store,
    each listed once and naming this ISA, and every CPU mode of the store is
    listed by the ISA it names: [isa.cpumodes] holds exactly the modes
    constructed for [isa], in the order of their construction. *)
Theorem modes_registered_steps name isa w0 w m w1 w2 :
  modes_registered w0 → modes_listed w0 →
  rtc api_step w0 w →
  CPUMode_new name isa w = inr (m, w1) →
  rtc api_step w1 w2 →
  ∃ i i2 cm2,
    isas w !! isa = Some i
    ∧ modes w !! m = None
    ∧ m ∉ TargetISA.cpumodes i
    ∧ (TargetISA.cpumodes <$> isas w1 !! isa)
      = Some (TargetISA.cpumodes i ++ [m])
    ∧ modes w1 !! m = Some (CPUMode.mk name isa [])
    ∧ isas w2 !! isa = Some i2
    ∧ (TargetISA.cpumodes i ++ [m]) `prefix_of` TargetISA.cpumodes i2
    ∧ modes w2 !! m = Some cm2
    ∧ CPUMode.name cm2 = name
    ∧ CPUMode.isa cm2 = isa
    ∧ modes_registered w2
    ∧ modes_listed w2.
Proof.
  intros Hreg Hlist H0 Hnew H2.
  pose proof (modes_registered_rtc _ _ H0 Hreg) as Hreg'.
  pose proof (modes_listed_rtc _ _ H0 Hlist) as Hlist'.
  pose proof (step_CPUMode _ _ _ _ _ Hnew) as Hstep.
  pose proof (modes_registered_rtc _ _ H2
                (modes_registered_step _ _ Hstep Hreg')) as Hreg2.
  pose proof (modes_listed_rtc _ _ H2
                (modes_listed_step _ _ Hstep Hlist')) as Hlist2.
  apply CPUMode_new_inv in Hnew as (i & Hi & -> & ->).
  set (r := fresh (dom (modes w))) in *.
  assert (modes w !! r = None) as Hfresh
    by apply (not_elem_of_dom_1 _ _ (is_fresh (dom (modes w)))).
  destruct (api_steps_grow _ _ H2) as (Hgi & Hgm).
  edestruct (Hgi isa) as (i2 & Hi2 & Hp).
  { simpl. by rewrite lookup_alter_eq, Hi. }
  edestruct (Hgm r) as (cm2 & Hcm2 & Hn & Ha & _).
  { simpl. apply lookup_insert_eq. }
  exists i, i2, cm2. split_and!; try done.
  - intros Hin. destruct (Hreg' isa i Hi) as (_ & Hall & _).
    rewrite Forall_forall in Hall. specialize (Hall _ Hin).
    by rewrite Hfresh in Hall.
  - simpl. by rewrite lookup_alter_eq, Hi.
  - simpl. apply lookup_insert_eq.
Qed.

Lemma modes_registered_steps_witness :
  ∃ r w1 w2 i2,
    CPUMode_new "RV128" 0%nat demo_world = inr (r, w1)
    ∧ enc r (SpecInst (MaybeBoundInst.mk demo_iadd ["i64"%string] true))
          2%nat 33 None None w1 = inr (tt, w2)
    ∧ isas w2 !! 0%nat = Some i2
    ∧ TargetISA.cpumodes i2 = [0%nat; 1%nat; r]
    ∧ modes_registered w2
    ∧ modes_listed w2.
Proof.
  assert (∃ r w1, CPUMode_new "RV128" 0%nat demo_world = inr (r, w1)
                  ∧ r = 2%nat)
    as (r & w1 & Hnew & Hr) by (eexists _, _; split; vm_compute; reflexivity).
  assert (∃ w2, enc r (SpecInst (MaybeBoundInst.mk demo_iadd ["i64"%string] true))
                  2%nat 33 None None w1 = inr (tt, w2)
                ∧ (TargetISA.cpumodes <$> isas w2 !! 0%nat)
                  = Some [0%nat; 1%nat; 2%nat])
    as (w2 & Henc & Hl).
  { pose proof Hnew as Hw1. rewrite Hr.
    vm_compute in Hw1. injection Hw1 as _ <-.
    eexists. split; vm_compute; reflexivity. }
  destruct (modes_registered_steps "RV128" 0%nat demo_world demo_world r w1 w2)
    as (i & i2 & cm2 & _ & _ & _ & _ & _ & Hi2 & _ & _ & _ & _ & Hreg & Hlist).
  - compute_done.
  - compute_done.
  - apply rtc_refl.
  - exact Hnew.
  - apply rtc_once. by eapply step_enc.
  - exists r, w1, w2, i2. split_and!; try done.
    rewrite Hi2 in Hl. injection Hl as ->. by rewrite Hr.
Defined.

Lemma finish_run_registered self w isa :
  isas w !! self = Some isa →
  Forall (λ m, is_Some (modes w !! m)) (TargetISA.cpumodes isa) →
  Forall (λ b, is_Some (banks w !! b)) (TargetISA.regbanks isa) →
  is_Some (TargetISA.settings isa)
  ∨ omap Encoding.isap (encodings_of w (TargetISA.cpumodes isa)) = [] →
  finish self w = inr (self, finished self isa w).
Proof.
  intros Hisa Hm Hb Hs. unfold finish.
  rewrite bind_run, (collect_encoding_recipes_run _ _ _ Hisa Hm).
  rewrite bind_run.
  erewrite collect_predicates_run;
    [|simpl; apply lookup_insert_eq|done|done].
  rewrite bind_run.
  erewrite collect_regclasses_run;
    [|simpl; rewrite lookup_insert_eq; reflexivity|done].
  unfold mret, M_ret, finished, upd_regclasses. simpl.
  do 3 f_equal. by rewrite insert_insert_eq.
Qed.

(** X8.  On a store whose CPU modes and register banks are registered as the
    constructors leave them, [finish] returns, with [self], as soon as a
    settings group is assigned or no encoding carries an ISA predicate; no
    recipe or predicate needs to be in any particular state. *)
Theorem finish_succeeds self w isa :
  modes_registered w →
  isas w !! self = Some isa →
  is_Some (TargetISA.settings isa) ∨ scanned_isaps self w = [] →
  ∃ w', finish self w = inr (self, w')
        ∧ isa_all_recipes w' self
          = Some (first_occurrences (scanned_recipes self w))
        ∧ isa_all_instps w' self
          = Some (first_occurrences (scanned_instps self w)).
Proof.
  intros Hreg Hisa Hs. destruct (Hreg self isa Hisa) as (_ & Hm & Hb).
  unfold scanned_isaps, scanned_recipes, scanned_instps in *.
  rewrite (all_encodings_eq _ _ _ Hisa) in *.
  exists (finished self isa w). split_and!.
  - apply finish_run_registered; try done.
    eapply Forall_impl; [exact Hm|]. intros m Hmm. simpl in Hmm.
    by destruct (modes w !! m).
  - apply finished_all_recipes.
  - apply finished_all_instps.
Qed.

Lemma finish_succeeds_witness :
  ∃ w', finish 0%nat plain_world = inr (0%nat, w')
        ∧ isa_all_recipes w' 0%nat = Some [1%nat; 0%nat].
Proof.
  edestruct (finish_succeeds 0%nat plain_world) as (w' & Hfin & Hrs & _).
  - compute_done.
  - reflexivity.
  - right. reflexivity.
  - exists w'. split; [exact Hfin|]. rewrite Hrs. reflexivity.
Defined.

(** * [finish] without a settings group *)

Lemma register_fails self q (s : gset ref) w isa :
  isas w !! self = Some isa → TargetISA.settings isa = None →
  (settings_number_predicate self q ≫= λ _, mret s) w
  = inl (AttributeError "number_predicate").
Proof.
  intros Hisa Hs. rewrite bind_run. unfold settings_number_predicate.
  by rewrite bind_run, (getattr_run _ _ _ _ _ _ Hisa), Hs.
Qed.

(** One iteration of the predicate loop, at an encoding with an ISA
    predicate, when [self.settings] is [None]. *)
Lemma preds_body_fail self (seen : gset ref) e w isa q :
  isas w !! self = Some isa → TargetISA.settings isa = None →
  Encoding.isap e = Some q →
  (instps ← match Encoding.instp e with
            | Some instp =>
                if decide (instp ∈ seen) then mret seen
                else
                  set_pred_number instp (size seen) ;;
                  let instps := seen ∪ {[instp]} in
                  all_instps_append self instp ;;
                  mret instps
            | None => mret seen
            end;
   match Encoding.isap e with
   | Some isap => settings_number_predicate self isap
   | None => mret tt
   end ;;
   mret instps) w
  = inl (AttributeError "number_predicate").
Proof.
  intros Hisa Hs Hq. rewrite Hq, bind_run.
  destruct (Encoding.instp e) as [p|]; [destruct (decide (p ∈ seen))|].
  - unfold mret at 1, M_ret at 1. by eapply register_fails.
  - rewrite !bind_run. unfold set_pred_number, all_instps_append, modify.
    rewrite !bind_run. cbv beta iota. unfold mret at 1, M_ret at 1.
    eapply register_fails.
    + unfold upd_isas, upd_preds; simpl. by rewrite lookup_alter_eq, Hisa.
    + done.
  - unfold mret at 1, M_ret at 1. by eapply register_fails.
Qed.

Lemma preds_numbered_settings_None self seen encs w isa :
  isas w !! self = Some isa → TargetISA.settings isa = None →
  ∃ isa', isas (preds_numbered self seen encs w) !! self = Some isa'
          ∧ TargetISA.settings isa' = None.
Proof.
  intros Hisa Hs. unfold preds_numbered; simpl.
  rewrite lookup_alter_eq, Hisa. eexists. split; [done|]. simpl. by rewrite Hs.
Qed.

Lemma preds_inner_fail self encs : ∀ (seen : gset ref) w isa,
  isas w !! self = Some isa → TargetISA.settings isa = None →
  omap Encoding.isap encs ≠ [] →
  foldM (λ (instps : gset ref) enc,
          instps ← match Encoding.instp enc with
                   | Some instp =>
                       if decide (instp ∈ instps) then mret instps
                       else
                         set_pred_number instp (size instps) ;;
                         let instps := instps ∪ {[instp]} in
                         all_instps_append self instp ;;
                         mret instps
                   | None => mret instps
                   end;
          match Encoding.isap enc with
          | Some isap => settings_number_predicate self isap
          | None => mret tt
          end ;;
          mret instps) seen encs w
  = inl (AttributeError "number_predicate").
Proof.
  induction encs as [|e encs IH]; intros seen w isa Hisa Hs Hne; [done|].
  change (foldM ?b seen (e :: encs) w)
    with (match b seen e w with
          | inl e => inl e
          | inr (b', w') => foldM b b' encs w'
          end).
  cbv beta.
  assert ((∃ q, Encoding.isap e = Some q) ∨ Encoding.isap e = None)
    as [[q Hq]|Hq] by (destruct (Encoding.isap e); eauto).
  - by erewrite preds_body_fail.
  - rewrite preds_body_run by (left; simpl; by rewrite Hq).
    destruct (preds_numbered_settings_None self seen (e :: nil) w isa Hisa Hs)
      as (isa' & Hisa' & Hs').
    eapply IH; [done..|]. simpl in Hne. by rewrite Hq in Hne.
Qed.

Lemma preds_outer_fail self cpumodes : ∀ (seen : gset ref) w isa,
  Forall (λ m, is_Some (modes w !! m)) cpumodes →
  isas w !! self = Some isa → TargetISA.settings isa = None →
  omap Encoding.isap (encodings_of w cpumodes) ≠ [] →
  foldM (λ (instps : gset ref) cpumode,
        encodings ← getattr modes CPUMode.encodings "encodings" cpumode;
        foldM (λ (instps : gset ref) enc,
          instps ← match Encoding.instp enc with
                   | Some instp =>
                       if decide (instp ∈ instps) then mret instps
                       else
                         set_pred_number instp (size instps) ;;
                         let instps := instps ∪ {[instp]} in
                         all_instps_append self instp ;;
                         mret instps
                   | None => mret instps
                   end;
          match Encoding.isap enc with
          | Some isap => settings_number_predicate self isap
          | None => mret tt
          end ;;
          mret instps) instps encodings) seen cpumodes w
  = inl (AttributeError "number_predicate").
Proof.
  induction cpumodes as [|m cpumodes IH]; intros seen w isa Hm Hisa Hs Hne;
    [done|].
  apply Forall_cons in Hm as [[cm Hcm] Hm].
  rewrite encodings_of_cons, Hcm in Hne. simpl default in Hne.
  rewrite omap_app in Hne.
  rewrite foldM_cons, bind_run, (getattr_run _ _ _ _ _ _ Hcm).
  destruct (omap Encoding.isap (CPUMode.encodings cm)) as [|q l] eqn:Hq.
  - rewrite preds_inner_run by (by left).
    destruct (preds_numbered_settings_None self seen (CPUMode.encodings cm)
                w isa Hisa Hs) as (isa' & Hisa' & Hs').
    eapply IH; [done..|].
    by rewrite (encodings_of_modes w).
  - by erewrite preds_inner_fail by (done || by rewrite Hq).
Qed.

(** X9.  [TargetISA.__init__] leaves [self.settings] at [None].  If it still
    is [None] when [finish] runs and some encoding carries an ISA predicate,
    [finish] raises the [AttributeError] of [None.number_predicate]. *)
Theorem finish_needs_settings self w isa :
  isas w !! self = Some isa →
  Forall (λ m, is_Some (modes w !! m)) (TargetISA.cpumodes isa) →
  TargetISA.settings isa = None →
  scanned_isaps self w ≠ [] →
  finish self w = inl (AttributeError "number_predicate").
Proof.
  intros Hisa Hm Hs Hne. unfold scanned_isaps in Hne.
  rewrite (all_encodings_eq _ _ _ Hisa) in Hne.
  unfold finish.
  rewrite bind_run, (collect_encoding_recipes_run _ _ _ Hisa Hm).
  rewrite bind_run. unfold _collect_predicates. cbv zeta.
  rewrite bind_run. unfold modify at 1. rewrite bind_run.
  erewrite getattr_run
    by (unfold upd_isas; simpl;
        rewrite lookup_alter_eq, lookup_insert_eq; reflexivity).
  rewrite bind_run. cbn [TargetISA.cpumodes TargetISA.set_all_instps
                         TargetISA.set_all_recipes].
  erewrite preds_outer_fail; [done|done| | |done].
  - unfold upd_isas; simpl.
    rewrite lookup_alter_eq, lookup_insert_eq. reflexivity.
  - done.
Qed.

Lemma finish_needs_settings_witness :
  finish 0%nat (upd_isas (alter (TargetISA.set_settings None) 0%nat) demo_world)
  = inl (AttributeError "number_predicate").
Proof.
  eapply (finish_needs_settings 0%nat _
            (TargetISA.mk "riscv" None ["base"%string] [0%nat; 1%nat]
               [0%nat; 1%nat] None None)).
  - reflexivity.
  - vm_compute. repeat constructor; eauto.
  - reflexivity.
  - discriminate.
Defined.

(** * Using the numbers *)

Lemma lookup_first_occurrences_number {V} (set : nat → V → V)
    (l : list ref) (m : gmap ref V) i r v :
  first_occurrences l !! i = Some r → m !! r = Some v →
  number_from set 0 (collect ∅ l) m !! r = Some (set i v).
Proof.
  intros Hi Hr. rewrite collect_empty.
  rewrite (number_from_lookup _ _ _ _ i) by (done || apply NoDup_first_occurrences).
  by rewrite Hr.
Qed.

Lemma finished_recipe_number self isa w i r :
  Forall (λ e, is_Some (recipes w !! Encoding.recipe e))
         (encodings_of w (TargetISA.cpumodes isa)) →
  first_occurrences (Encoding.recipe <$> encodings_of w (TargetISA.cpumodes isa))
    !! i = Some r →
  recipe_number (finished self isa w) r = Some i.
Proof.
  intros Hall Hi. pose proof (elem_of_lookup_first_occurrences _ _ _ Hi) as Hr.
  apply list_elem_of_fmap in Hr as (e & -> & He).
  rewrite Forall_forall in Hall. destruct (Hall e He) as [rcp Hrcp].
  unfold recipe_number, finished; simpl.
  by erewrite lookup_first_occurrences_number.
Qed.

Lemma finished_pred_number self isa w i p :
  Forall (λ p, is_Some (preds w !! p))
         (omap Encoding.instp (encodings_of w (TargetISA.cpumodes isa))) →
  first_occurrences (omap Encoding.instp (encodings_of w (TargetISA.cpumodes isa)))
    !! i = Some p →
  pred_number (finished self isa w) p = Some i.
Proof.
  intros Hall Hi. pose proof (elem_of_lookup_first_occurrences _ _ _ Hi) as Hp.
  rewrite Forall_forall in Hall. destruct (Hall p Hp) as [node Hnode].
  unfold pred_number, finished; simpl.
  by erewrite lookup_first_occurrences_number.
Qed.

(** X10.  After [finish()], the number of the recipe of every encoding is
    the index of that recipe in [all_recipes], and the number of the
    instruction predicate of every encoding that has one is the index of
    that predicate in [all_instps]: [all_recipes[enc.recipe.number]] is
    [enc.recipe]. *)
Theorem finish_numbers_index self w :
  ready self w →
  ∃ w' rs ps,
    finish self w = inr (self, w')
    ∧ isa_all_recipes w' self = Some rs
    ∧ isa_all_instps w' self = Some ps
    ∧ (∀ e, e ∈ all_encodings self w' →
         ∃ n, recipe_number w' (Encoding.recipe e) = Some n
              ∧ rs !! n = Some (Encoding.recipe e))
    ∧ (∀ e p, e ∈ all_encodings self w' → Encoding.instp e = Some p →
         ∃ n, pred_number w' p = Some n ∧ ps !! n = Some p).
Proof.
  intros Hr. pose proof Hr as (isa & Hisa & _ & _ & Hrcp & Hprd & _)%ready_inv.
  exists (finished self isa w). eexists _, _.
  assert (all_encodings self (finished self isa w)
          = encodings_of w (TargetISA.cpumodes isa)) as ->.
  { erewrite all_encodings_eq by apply finished_isa. simpl.
    by apply encodings_of_modes. }
  split_and!.
  - by apply finish_run.
  - apply finished_all_recipes.
  - apply finished_all_instps.
  - intros e He.
    assert (Encoding.recipe e ∈ first_occurrences
              (Encoding.recipe <$> encodings_of w (TargetISA.cpumodes isa)))
      as [n Hn]%list_elem_of_lookup.
    { apply elem_of_first_occurrences, list_elem_of_fmap. eauto. }
    exists n. split; [by apply finished_recipe_number|done].
  - intros e p He Hp.
    assert (p ∈ first_occurrences
              (omap Encoding.instp (encodings_of w (TargetISA.cpumodes isa))))
      as [n Hn]%list_elem_of_lookup.
    { apply elem_of_first_occurrences, list_elem_of_omap. eauto. }
    exists n. split; [by apply finished_pred_number|done].
Qed.

Lemma finish_numbers_index_witness :
  ∃ w' rs,
    finish 0%nat demo_world = inr (0%nat, w')
    ∧ isa_all_recipes w' 0%nat = Some rs
    ∧ ∃ n, recipe_number w' 0%nat = Some n ∧ rs !! n = Some 0%nat.
Proof.
  destruct (finish_numbers_index 0%nat demo_world)
    as (w' & rs & ps & Hfin & Hrs & _ & Hidx & _).
  { vm_compute. repeat constructor; eauto. }
  exists w', rs. split_and!; [done..|].
  apply (Hidx (demo_enc 0 0 17 None (Some 1%nat))).
  assert (finish 0%nat demo_world
          = inr (0%nat, finished 0%nat
                   (TargetISA.mk "riscv" (Some (SettingGroup.mk "riscv" []))
                      ["base"%string] [0%nat; 1%nat] [0%nat; 1%nat] None None)
                   demo_world)) as Hrun.
  { apply finish_run; [vm_compute; repeat constructor; eauto|reflexivity]. }
  rewrite Hfin in Hrun. injection Hrun as ->.
  vm_compute. apply list_elem_of_In. simpl. tauto.
Defined.

(** X11.  Encodings that come later in the scan never change the numbers of
    what came before: if the encodings of one target are those of another
    followed by more, the [all_recipes] and [all_instps] of the smaller
    target are prefixes of those of the larger one, and the recipes and
    predicates of the smaller target have the same numbers in both. *)
Theorem finish_numbers_stable self w w2 extra :
  ready self w → ready self w2 →
  all_encodings self w2 = all_encodings self w ++ extra →
  ∃ w' w2' rs rs2 ps ps2,
    finish self w = inr (self, w')
    ∧ finish self w2 = inr (self, w2')
    ∧ isa_all_recipes w' self = Some rs
    ∧ isa_all_recipes w2' self = Some rs2
    ∧ isa_all_instps w' self = Some ps
    ∧ isa_all_instps w2' self = Some ps2
    ∧ rs `prefix_of` rs2
    ∧ ps `prefix_of` ps2
    ∧ (∀ r, r ∈ rs → recipe_number w2' r = recipe_number w' r)
    ∧ (∀ p, p ∈ ps → pred_number w2' p = pred_number w' p).
Proof.
  intros Hr Hr2 Hext.
  pose proof Hr as (isa & Hisa & _ & _ & Hrcp & Hprd & _)%ready_inv.
  pose proof Hr2 as (isa2 & Hisa2 & _ & _ & Hrcp2 & Hprd2 & _)%ready_inv.
  rewrite (all_encodings_eq _ _ _ Hisa), (all_encodings_eq _ _ _ Hisa2) in Hext.
  exists (finished self isa w), (finished self isa2 w2). eexists _, _, _, _.
  split_and!;
    [by apply finish_run|by apply finish_run
    |apply finished_all_recipes|apply finished_all_recipes
    |apply finished_all_instps|apply finished_all_instps|..].
  - rewrite Hext, fmap_app, <-!collect_empty, collect_app. by eexists.
  - rewrite Hext, omap_app, <-!collect_empty, collect_app. by eexists.
  - intros r [i Hi]%list_elem_of_lookup.
    rewrite (finished_recipe_number _ _ _ _ _ Hrcp Hi).
    apply finished_recipe_number; [done|].
    rewrite Hext, fmap_app, <-!collect_empty, collect_app.
    apply lookup_app_l_Some. by rewrite collect_empty.
  - intros p [i Hi]%list_elem_of_lookup.
    rewrite (finished_pred_number _ _ _ _ _ Hprd Hi).
    apply finished_pred_number; [done|].
    rewrite Hext, omap_app, <-!collect_empty, collect_app.
    apply lookup_app_l_Some. by rewrite collect_empty.
Qed.

Lemma finish_numbers_stable_witness :
  ∃ w' w2',
    finish 0%nat plain_world = inr (0%nat, w')
    ∧ finish 0%nat plain_world_extended = inr (0%nat, w2')
    ∧ isa_all_recipes w' 0%nat = Some [1%nat; 0%nat]
    ∧ isa_all_recipes w2' 0%nat = Some [1%nat; 0%nat; 2%nat]
    ∧ recipe_number w2' 0%nat = recipe_number w' 0%nat.
Proof.
  destruct (finish_numbers_stable 0%nat plain_world plain_world_extended
              [Encoding.mk 1%nat demo_iadd ["i64"%string] 2%nat 33 None None])
    as (w' & w2' & rs & rs2 & ps & ps2 & H1 & H2 & Hrs & Hrs2 & _ & _ & _ & _
        & Hnum & _).
  - compute_done.
  - compute_done.
  - reflexivity.
  - assert (finish 0%nat plain_world = inr (0%nat, plain_finished)) as E1
      by (vm_compute; reflexivity).
    rewrite E1 in H1. injection H1 as <-.
    assert (isa_all_recipes plain_finished 0%nat = Some [1%nat; 0%nat]) as E2
      by reflexivity.
    rewrite E2 in Hrs. injection Hrs as <-.
    exists plain_finished, w2'. split_and!; [done|done|done| |].
    + rewrite Hrs2. f_equal.
      assert (finish 0%nat plain_world_extended
              = inr (0%nat, finished 0%nat
                       (TargetISA.mk "riscv" None ["base"%string]
                          [0%nat; 1%nat] [] None None)
                       plain_world_extended)) as Hrun
        by (apply finish_run; [compute_done|reflexivity]).
      rewrite H2 in Hrun. injection Hrun as ->.
      rewrite finished_all_recipes in Hrs2. injection Hrs2 as <-.
      vm_compute. reflexivity.
    + apply Hnum. apply list_elem_of_In. simpl. tauto.
Defined.

(** X12.  After [finish()], two encodings have the same recipe number only
    if they share the recipe object, and two instruction predicates of
    encodings have the same number only if they are the same object: numbers
    identify the entries of the tables. *)
Theorem finish_numbers_injective self w :
  ready self w →
  ∃ w',
    finish self w = inr (self, w')
    ∧ (∀ e1 e2, e1 ∈ all_encodings self w → e2 ∈ all_encodings self w →
         recipe_number w' (Encoding.recipe e1)
         = recipe_number w' (Encoding.recipe e2) →
         Encoding.recipe e1 = Encoding.recipe e2)
    ∧ (∀ e1 e2 p1 p2,
         e1 ∈ all_encodings self w → e2 ∈ all_encodings self w →
         Encoding.instp e1 = Some p1 → Encoding.instp e2 = Some p2 →
         pred_number w' p1 = pred_number w' p2 → p1 = p2).
Proof.
  intros Hr. pose proof Hr as (isa & Hisa & _ & _ & Hrcp & Hprd & _)%ready_inv.
  exists (finished self isa w). rewrite (all_encodings_eq _ _ _ Hisa).
  split_and!.
  - by apply finish_run.
  - intros e1 e2 He1 He2.
    assert (∀ e, e ∈ encodings_of w (TargetISA.cpumodes isa) →
              ∃ n, first_occurrences
                     (Encoding.recipe <$> encodings_of w (TargetISA.cpumodes isa))
                     !! n = Some (Encoding.recipe e)) as Hidx.
    { intros e He. apply list_elem_of_lookup, elem_of_first_occurrences,
        list_elem_of_fmap. eauto. }
    destruct (Hidx e1 He1) as [n1 H1], (Hidx e2 He2) as [n2 H2].
    rewrite (finished_recipe_number _ _ _ _ _ Hrcp H1),
      (finished_recipe_number _ _ _ _ _ Hrcp H2).
    intros [= ->]. congruence.
  - intros e1 e2 p1 p2 He1 He2 Hp1 Hp2.
    assert (∀ e p, e ∈ encodings_of w (TargetISA.cpumodes isa) →
              Encoding.instp e = Some p →
              ∃ n, first_occurrences
                     (omap Encoding.instp (encodings_of w (TargetISA.cpumodes isa)))
                     !! n = Some p) as Hidx.
    { intros e p He Hp. apply list_elem_of_lookup, elem_of_first_occurrences,
        list_elem_of_omap. eauto. }
    destruct (Hidx e1 p1 He1 Hp1) as [n1 H1], (Hidx e2 p2 He2 Hp2) as [n2 H2].
    rewrite (finished_pred_number _ _ _ _ _ Hprd H1),
      (finished_pred_number _ _ _ _ _ Hprd H2).
    intros [= ->]. congruence.
Qed.

Lemma finish_numbers_injective_witness :
  ∃ w', finish 0%nat demo_world = inr (0%nat, w')
        ∧ recipe_number w' 1%nat ≠ recipe_number w' 0%nat.
Proof.
  destruct (finish_numbers_injective 0%nat demo_world) as (w' & Hfin & Hinj & _).
  { vm_compute. repeat constructor; eauto. }
  exists w'. split; [done|]. intros Heq.
  specialize (Hinj (demo_enc 0 1 16 (Some 0%nat) None)
                   (demo_enc 0 0 17 None (Some 1%nat))).
  assert (1%nat = 0%nat) as Habs; [|discriminate Habs].
  apply Hinj; [| |exact Heq]; apply list_elem_of_In; vm_compute; tauto.
Defined.
